(** * ExceLint add-in: the task pane's staged fat-cross analysis

    A shallow embedding of [src/taskpane/components/App.tsx].  The add-in
    imports its analysis engine from [core/src] ([ExceLintTypes],
    [colorize], [rectangleutils], [option], [config]); those modules are
    used here through their interface, and the few operations the
    properties below are about are modelled from the design document. *)

From Equations Require Import Equations.
From Equations.Prop Require Import Logic.
From Stdlib Require Import ZArith QArith String Ascii Lia.
From stdpp Require Import base option list strings.

Local Open Scope string_scope.
Local Open Scope Z_scope.

(** ** Exceptions

    TypeScript code fails by throwing.  A computation that may throw
    returns a [Result]. *)

Inductive Exn : Type :=
  | AbsentKey                (* Dictionary.get on a key that is not there *)
  | DegenerateInput          (* a range or target the navigator rejects *)
  | CoreError (msg : string) (* anything else raised inside core/src *).

Inductive Result (A : Type) : Type :=
  | Ok (a : A)
  | Throw (e : Exn).
Arguments Ok {A} a.
Arguments Throw {A} e.

#[export] Instance Result_ret : MRet Result := fun _ a => Ok a.
#[export] Instance Result_bind : MBind Result := fun _ _ f m =>
  match m with
  | Ok a => f a
  | Throw e => Throw e
  end.

(** ** The types of [core/src/ExceLintTypes] *)

Module XLNT.

(** [ExceLintVector]: an integer triple, column, row and sheet index. *)
Record ExceLintVector : Type := mkVector { x : Z; y : Z; z : Z }.

#[export] Instance ExceLintVector_eq_dec : EqDecision ExceLintVector.
Proof. solve_decision. Defined.

(** Modelled from the spec: [asKey], the canonical string key of a
    vector, is missing from the sources.  Two vectors have the same key
    exactly when they have the same components, and the key is used for
    nothing but lookup and equality, so a dictionary indexed by such
    keys is modelled as indexed by the vector itself. *)
Definition asKey (v : ExceLintVector) : ExceLintVector := v.

Record Address : Type := mkAddress { worksheet : string; row : Z; column : Z }.

Definition asVector (a : Address) : ExceLintVector := mkVector (column a) (row a) 0.

Record Range : Type := mkRange { upperLeft : Address; bottomRight : Address }.

Definition upperLeftColumn (r : Range) : Z := column (upperLeft r).
Definition upperLeftRow (r : Range) : Z := row (upperLeft r).
Definition bottomRightColumn (r : Range) : Z := column (bottomRight r).
Definition bottomRightRow (r : Range) : Z := row (bottomRight r).

Record Rectangle : Type := mkRectangle
  { upperleft : ExceLintVector; bottomright : ExceLintVector }.

#[export] Instance Rectangle_eq_dec : EqDecision Rectangle.
Proof. solve_decision. Defined.

(** [Range.rectangle()]: the sheet-local rectangle of a range. *)
Definition rectangle (r : Range) : Rectangle :=
  mkRectangle (asVector (upperLeft r)) (asVector (bottomRight r)).

(** Modelled from the spec: [Rectangle.expand()] is missing from the
    sources.  App.tsx iterates over its result and takes the key of every
    element, so it enumerates the cells of the rectangle; they are listed
    row by row. *)
Definition expand (r : Rectangle) : list ExceLintVector :=
  let ul := upperleft r in
  let br := bottomright r in
  row_ ← seqZ (y ul) (y br - y ul + 1);
  col_ ← seqZ (x ul) (x br - x ul + 1);
  [mkVector col_ row_ 0].

(** Modelled from the spec: a rectangle contains a cell when the cell
    lies between its corners, column and row wise. *)
Definition containsCell (r : Rectangle) (v : ExceLintVector) : bool :=
  bool_decide (x (upperleft r) ≤ x v ≤ x (bottomright r)
               ∧ y (upperleft r) ≤ y v ≤ y (bottomright r)).

(** A proposed fix: two rectangles and an anomaly score.  The score is a
    JavaScript number; only its order is ever used, and it is kept as a
    rational. *)
Record ProposedFix : Type := mkFix
  { rect1 : Rectangle; rect2 : Rectangle; score : Q }.

(** Modelled from the spec: [ProposedFix.includesCellAt] is missing from
    the sources; a fix includes a cell if either rectangle contains it. *)
Definition includesCellAt (pf : ProposedFix) (addr : Address) : bool :=
  containsCell (rect1 pf) (asVector addr) || containsCell (rect2 pf) (asVector addr).

(** A rectangle with the formula of its upper-left cell. *)
Record RectInfo : Type := mkRectInfo { rect : Rectangle; formula : string }.

(** The four arms of a fat cross. *)
Record FatCross : Type := mkFatCross
  { up : Range; left : Range; down : Range; right : Range }.

(** *** Dictionary

    Modelled from the spec: the class [Dictionary] is missing from the
    sources.  It is a mapping with unique keys that iterates in insertion
    order: an association list in which [put] overwrites the value of a
    key that is present, where it stands, and appends a new key. *)
Definition Dictionary (K V : Type) : Type := list (K * V).

Section Dictionary.
Context {K : Type} `{EqDecision K} {V : Type}.

Local Abbreviation Dictionary_ := (Dictionary K V).

Definition empty : Dictionary_ := [].

Fixpoint lookup (k : K) (d : Dictionary_) : option V :=
  match d with
  | [] => None
  | (k', v) :: rest => if decide (k' = k) then Some v else lookup k rest
  end.

Definition contains (d : Dictionary_) (k : K) : bool :=
  bool_decide (is_Some (lookup k d)).

(** A lookup of a key that is not there fails. *)
Definition get (d : Dictionary_) (k : K) : Result V :=
  match lookup k d with
  | Some v => Ok v
  | None => Throw AbsentKey
  end.

Fixpoint put (k : K) (v : V) (d : Dictionary_) : Dictionary_ :=
  match d with
  | [] => [(k, v)]
  | (k', v') :: rest =>
      if decide (k' = k) then (k', v) :: rest else (k', v') :: put k v rest
  end.

Definition keyFilter (p : K → bool) (d : Dictionary_) : Dictionary_ :=
  List.filter (λ kv, p (fst kv)) d.

(** [d.merge(o)]: on a key of both, the value of [o], the overriding
    side, wins. *)
Definition merge (d o : Dictionary_) : Dictionary_ :=
  fold_left (λ acc kv, put (fst kv) (snd kv) acc) o d.
End Dictionary.

End XLNT.

(** ** [core/src/option]: the verdict of a stage *)

Inductive Maybe (A : Type) : Type :=
  | No
  | Possibly (value : A)
  | Definitely (value : A).
Arguments No {A}.
Arguments Possibly {A} value.
Arguments Definitely {A} value.

Import XLNT.

(** ** The analysis engine

    [Colorize], [RectangleUtils] and [Config] live in [core/src]; App.tsx
    only calls them.  They are taken through this interface.  Each
    operation may throw, like any TypeScript function.
    [adjustProposedFixesByStyleHash] returns nothing and changes the fixes
    of its argument in place: here it returns the array as it stands after
    the call. *)

Class Engine : Type := {
  Fingerprint : Type;
  Fingerprint_eq_dec :: EqDecision Fingerprint;
  findFatCross : Range → Address → Result FatCross;
  relativeFormulaRefs :
    Dictionary ExceLintVector string → Result (Dictionary ExceLintVector (list ExceLintVector));
  fingerprints :
    Dictionary ExceLintVector (list ExceLintVector) → Result (Dictionary ExceLintVector Fingerprint);
  identify_groups :
    Dictionary ExceLintVector Fingerprint → Result (Dictionary Fingerprint (list Rectangle));
  mergeRectangleDictionaries :
    Dictionary Fingerprint (list Rectangle) → Dictionary Fingerprint (list Rectangle) →
    Result (Dictionary Fingerprint (list Rectangle));
  mergeRectangles :
    Dictionary Fingerprint (list Rectangle) → Result (Dictionary Fingerprint (list Rectangle));
  generate_proposed_fixes : Dictionary Fingerprint (list Rectangle) → Result (list ProposedFix);
  filterDuplicateFixes : list ProposedFix → Result (list ProposedFix);
  filterFixesByUserThreshold : list ProposedFix → Q → Result (list ProposedFix);
  adjustProposedFixesByStyleHash :
    list ProposedFix → Dictionary ExceLintVector string → Result (list ProposedFix);
  filterFix : ProposedFix → (Rectangle → Result RectInfo) → bool → Result (option ProposedFix);
  reportingThreshold : Q
}.

(** ** The host

    What the add-in reads from and writes to the worksheet through the
    Excel request context.  [Sheet] is the state of the worksheet.
    [rangeFormulas] is [range.formulas] once loaded, [cellStyleHash] the
    hash [ExcelJSON.styleHash(fmt + stl + vtp)] of the cell at a zero-based
    row and column, [fillColor] the loaded fill colour of a range, which may
    fail to load.  The other requests are taken to succeed. *)

Class Host : Type := {
  Sheet : Type;
  rangeFormulas : Sheet → Range → list (list string);
  cellStyleHash : Sheet → Z → Z → string;
  fillColor : Sheet → Range → Result string;
  setFillColor : Sheet → Range → string → Sheet;
  clearFill : Sheet → Range → Sheet
}.

(** ** App.tsx *)

Module App.

(** [OldColor]: the colour a range had before it was painted. *)
Record OldColor : Type := mkOldColor { color : string; range : Range }.

(** What a stage yields: the fixes and the old colours. *)
Definition Verdict : Type := Maybe (list ProposedFix * list OldColor).

(** The fixes a verdict carries. *)
Definition fixesOf (v : Verdict) : list ProposedFix :=
  match v with
  | No => []
  | Possibly value | Definitely value => fst value
  end.

Section Sheet.
Context `{host : Host}.

(** [val[0]]: the first character, undefined on the empty string. *)
Definition charAt0 (val : string) : option ascii :=
  match val with
  | EmptyString => None
  | String c _ => Some c
  end.

(** [val.substr(1)] *)
Definition substr1 (val : string) : string :=
  match val with
  | EmptyString => EmptyString
  | String _ rest => rest
  end.

(** The body of the inner loop of [getFormulasFromRange]. *)
Definition scanCell (origin_x origin_y row col : Z) (val : string)
    (d : Dictionary ExceLintVector string) : Dictionary ExceLintVector string :=
  if bool_decide (charAt0 val = Some "="%char)
     || bool_decide (charAt0 val = Some "+"%char)
     || bool_decide (charAt0 val = Some "-"%char)
  then
    let key := asKey (mkVector (origin_x + col) (origin_y + row) 0) in
    if bool_decide (charAt0 val = Some "="%char)
    then put key (substr1 val) d
    else put key val d
  else d.

(** What the two tests of [scanCell] amount to: the text stored for a raw
    value, if it is stored at all. *)
Definition storedText (val : string) : option string :=
  match val with
  | EmptyString => None
  | String c rest =>
      if decide (c = "="%char) then Some rest
      else if decide (c = "+"%char ∨ c = "-"%char) then Some val
      else None
  end.

(** [for (let col = 0; col < formulas[row].length; col++)] *)
Fixpoint scanCols (origin_x origin_y row col : Z) (cells : list string)
    (d : Dictionary ExceLintVector string) : Dictionary ExceLintVector string :=
  match cells with
  | [] => d
  | val :: cells' =>
      scanCols origin_x origin_y row (col + 1) cells'
        (scanCell origin_x origin_y row col val d)
  end.

(** [for (let row = 0; row < formulas.length; row++)] *)
Fixpoint scanRows (origin_x origin_y row : Z) (formulas : list (list string))
    (d : Dictionary ExceLintVector string) : Dictionary ExceLintVector string :=
  match formulas with
  | [] => d
  | cells :: formulas' =>
      scanRows origin_x origin_y (row + 1) formulas'
        (scanCols origin_x origin_y row 0 cells d)
  end.

Definition getFormulasFromRange (ws : Sheet) (r : Range)
    : Dictionary ExceLintVector string :=
  let formulas := rangeFormulas ws r in
  let origin_x := upperLeftColumn r in
  let origin_y := upperLeftRow r in
  scanRows origin_x origin_y 0 formulas empty.

(** [getFormattingFromRange]: the style hash of every cell of the
    range, row by row; [getCell] is zero-indexed. *)
Definition getFormattingFromRange (ws : Sheet) (r : Range)
    : Dictionary ExceLintVector string :=
  let ul_x := upperLeftColumn r in
  let ul_y := upperLeftRow r in
  let br_x := bottomRightColumn r in
  let br_y := bottomRightRow r in
  foldl (λ d row_,
           foldl (λ d col_,
                    put (asKey (mkVector col_ row_ 0))
                        (cellStyleHash ws (row_ - 1) (col_ - 1)) d)
                 d (seqZ ul_x (br_x - ul_x + 1)))
        empty (seqZ ul_y (br_y - ul_y + 1)).

(** The cells of a range, row by row, as [getFormattingFromRange] visits
    them. *)
Definition visited (r : Range) : list (Z * Z) :=
  row_ ← seqZ (upperLeftRow r) (bottomRightRow r - upperLeftRow r + 1);
  pair row_ <$> seqZ (upperLeftColumn r) (bottomRightColumn r - upperLeftColumn r + 1).

(** [colorRange]: paint a range and report the colour it had.  A
    failure inside the [try] block is logged and swallowed. *)
Definition colorRange (ws : Sheet) (r : Range) (color_ : string) : OldColor * Sheet :=
  match fillColor ws r with
  | Throw _ => (mkOldColor "" r, ws)
  | Ok oldColor =>
      if bool_decide (color_ = oldColor) then (mkOldColor color_ r, ws)
      else if bool_decide (color_ = "#FFFFFF") then (mkOldColor oldColor r, clearFill ws r)
      else (mkOldColor oldColor r, setFillColor ws r color_)
  end.
End Sheet.

(** *** [incrementalFatCrossAnalysis]

    An async generator.  Its local variables live across the yields; the
    generator object is a state machine that [next] resumes. *)

(** The variables the generator declares before its loop; [F] is the type
    of the fingerprints. *)
Record Locals_ (F : Type) : Type := mkLocals {
  steps : list Range;
  old_colors : list OldColor;
  all_formulas : Dictionary ExceLintVector string;
  rects : Dictionary F (list Rectangle);
  styles : Dictionary ExceLintVector string;
  proposed_fixes : list ProposedFix
}.
Arguments mkLocals {F}.
Arguments steps {F}.
Arguments old_colors {F}.
Arguments all_formulas {F}.
Arguments rects {F}.
Arguments styles {F}.
Arguments proposed_fixes {F}.

(** The generator object: not started, suspended at the yield of turn
    [i], or completed. *)
Inductive Generator_ (F : Type) : Type :=
  | Start
  | Suspended (i : nat) (l : Locals_ F)
  | Completed.
Arguments Start {F}.
Arguments Suspended {F}.
Arguments Completed {F}.

(** The result of [next()]: a yielded value, the returned value, the
    [{done: true, value: undefined}] of a completed generator, or a
    rejection. *)
Inductive IteratorResult : Type :=
  | Yield (v : Verdict)
  | Return (v : Verdict)
  | Done
  | Rejected (e : Exn).

Abbreviation Locals := (Locals_ Fingerprint).
Abbreviation Generator := (Generator_ Fingerprint).

Section Generator.
Context `{engine : Engine} `{host : Host}.

(** The arguments of the call. *)
Variable rng : Range.
Variable addr : Address.
Variable use_colors_for_debugging : bool.
Variable use_styles : bool.

Definition debug_colors : list string := ["#CBAACB"; "#FFCCB6"; "#ABDEE6"; "#F3B0C3"].

(** The closure [rectf] of the heuristic filter: the rectangle with the
    formula of its upper-left cell. *)
Definition rectf (all_formulas_ : Dictionary ExceLintVector string)
    (rect_ : Rectangle) : Result RectInfo :=
  let formulaCoord := upperleft rect_ in
  firstFormula ← get all_formulas_ (asKey formulaCoord);
  mret (mkRectInfo rect_ firstFormula).

(** [for (const fix of pfs4) { ... if (ffix.hasValue) proposed_fixes.push(ffix.value) }] *)
Fixpoint heuristics (all_formulas_ : Dictionary ExceLintVector string)
    (pfs4 : list ProposedFix)
    (proposed_fixes_ : list ProposedFix) : Result (list ProposedFix) :=
  match pfs4 with
  | [] => Ok proposed_fixes_
  | fix_ :: rest =>
      ffix ← filterFix fix_ (rectf all_formulas_) true;
      heuristics all_formulas_ rest
        (match ffix with
         | Some value => (proposed_fixes_ ++ [value])%list
         | None => proposed_fixes_
         end)
  end.

(** The part of the loop body that follows the reads from the sheet:
    [step] is [steps[i]] and [ss] the formatting read for it. *)
Definition analyse (step : Range) (ss : Dictionary ExceLintVector string)
    (l : Locals) : Result Locals :=
  let fAddrs := expand (rectangle step) in
  let fAddrDict := foldl (λ d f, put (asKey f) f d) empty fAddrs in
  let fs := keyFilter (λ k, contains fAddrDict k) (all_formulas l) in
  let styles_ := merge (styles l) ss in
  fRefs ← relativeFormulaRefs fs;
  fps ← fingerprints fRefs;
  stepRects ← identify_groups fps;
  rects1 ← mergeRectangleDictionaries stepRects (rects l);
  rects2 ← mergeRectangles rects1;
  pfs ← generate_proposed_fixes rects2;
  pfs2 ← filterDuplicateFixes pfs;
  let pfs3 := List.filter (λ pf, includesCellAt pf addr) pfs2 in
  pfs4 ← filterFixesByUserThreshold pfs3 reportingThreshold;
  pfs4' ← adjustProposedFixesByStyleHash pfs4 styles_;
  proposed_fixes_ ← heuristics (all_formulas l) pfs4' [];
  mret (mkLocals (steps l) (old_colors l) (all_formulas l) rects2 styles_ proposed_fixes_).

(** The body of the loop up to its yield, on the arm [step] with the
    debugging colour [color_]. *)
Definition stage (step : Range) (color_ : string) (l : Locals) (ws : Sheet)
    : Result Locals * Sheet :=
  let '(old_colors_, ws') :=
    if use_colors_for_debugging then
      let '(oc, ws') := colorRange ws step color_ in
      ((old_colors l ++ [oc])%list, ws')
    else (old_colors l, ws) in
  let ss := if use_styles then getFormattingFromRange ws' step else empty in
  let l0 := mkLocals (steps l) old_colors_ (all_formulas l) (rects l) (styles l) [] in
  (analyse step ss l0, ws').

(** Turn [i] of the loop works on [steps[i]] with [debug_colors[i]].
    Past the end of the array [steps[i]] is undefined, and a method call
    on it throws. *)
Definition iteration (i : nat) (l : Locals) (ws : Sheet) : Result Locals * Sheet :=
  match steps l !! i with
  | None => (Throw (CoreError "undefined"), ws)
  | Some step => stage step (default "" (debug_colors !! i)) l ws
  end.

(** The conclusive answer, as computed at the last yield and again after
    the loop. *)
Definition conclusive (l : Locals) : Verdict :=
  if bool_decide (length (proposed_fixes l) = 0%nat) then No
  else Definitely (proposed_fixes l, old_colors l).

(** What turn [i] yields.  The value is the pair of arrays as they stand
    at the yield; [old_colors] is one array, shared by all the results,
    that later turns extend. *)
Definition yielded (i : nat) (l : Locals) : Verdict :=
  if bool_decide (Z.of_nat i = Z.of_nat (length (steps l)) - 1) then conclusive l
  else Possibly (proposed_fixes l, old_colors l).

(** Run the loop from turn [i] to the next suspension. *)
Definition resume (i : nat) (l : Locals) (ws : Sheet)
    : IteratorResult * Generator * Sheet :=
  if bool_decide (i < length (steps l))%nat then
    match iteration i l ws with
    | (Throw e, ws') => (Rejected e, Completed, ws')
    | (Ok l', ws') => (Yield (yielded i l'), Suspended i l', ws')
    end
  else (Return (conclusive l), Completed, ws).

(** The variables as they stand when the loop is entered: the four arms in
    [steps], the formulas of the range read once, and nothing else yet. *)
Definition initial (fc : FatCross) (ws : Sheet) : Locals :=
  let steps_ := [up fc; left fc; down fc; right fc] in
  let all_formulas_ := getFormulasFromRange ws rng in
  mkLocals steps_ [] all_formulas_ empty empty [].

Definition next (g : Generator) (ws : Sheet) : IteratorResult * Generator * Sheet :=
  match g with
  | Start =>
      match findFatCross rng addr with
      | Throw e => (Rejected e, Completed, ws)
      | Ok fc => resume 0 (initial fc ws) ws
      end
  | Suspended i l => resume (S i) l ws
  | Completed => (Done, Completed, ws)
  end.

(** The states a generator object goes through, whatever the sheet is at
    each call of [next]. *)
Inductive reachable : Generator → Prop :=
  | reachable_start : reachable Start
  | reachable_next g ws r g' ws' :
      reachable g → next g ws = (r, g', ws') → reachable g'.

(** A caller that asks for every result, as [onRangeChange] and
    [onInput] do: the values yielded, then how the generator ended. *)
Fixpoint drain (fuel : nat) (g : Generator) (ws : Sheet)
    : list Verdict * option IteratorResult :=
  match fuel with
  | O => ([], None)
  | S fuel' =>
      match next g ws with
      | (Yield v, g', ws') =>
          let '(vs, e) := drain fuel' g' ws' in (v :: vs, e)
      | (r, _, _) => ([], Some r)
      end
  end.
End Generator.

(** *** The loop of [onRangeChange] and [onInput] *)

Section Caller.
Context `{engine : Engine} `{host : Host}.

(** The arguments of the analysis: the used range and the cell changed. *)
Variable rng : Range.
Variable addr : Address.
Variable use_colors_for_debugging : bool.
Variable use_styles : bool.

(** One turn of [switch (v.type)]: "no" leaves [found_fixes] as it is,
    "possibly" and "definitely" replace it by the fixes yielded. *)
Definition foundStep (found_fixes : list ProposedFix) (v : Verdict) : list ProposedFix :=
  match v with
  | No => found_fixes
  | Possibly value => fst value
  | Definitely value => fst value
  end.

(** [found_fixes] after the values yielded, from [let found_fixes = []]. *)
Definition foundFixes (vs : list Verdict) : list ProposedFix :=
  foldl foundStep [] vs.

(** [for (it = await next(); !it.done; it = await next())] followed by
    [setState({..., fixes: found_fixes})]: the fixes put in the state of the
    task pane.  The value the generator returns is not looked at.  When a
    call of [next] is rejected the exception leaves the handler and the
    state is not set.  Five calls are enough for every run. *)
Definition analysisFixes (ws : Sheet) : option (list ProposedFix) :=
  match drain rng addr use_colors_for_debugging use_styles 5 Start ws with
  | (vs, Some (Return _)) => Some (foundFixes vs)
  | _ => None
  end.

(** [onRangeChange]: the analysis runs for an edit of a single cell only.
    [changeType] is [args.changeType] and [cellCount] the number of cells
    of the range changed. *)
Definition onRangeChange (changeType : string) (cellCount : Z) (ws : Sheet)
    : option (list ProposedFix) :=
  if bool_decide (changeType = "RangeEdited") then
    if bool_decide (cellCount = 1) then analysisFixes ws
    else None
  else None.

(** [restoreColors]: every saved range is painted with its saved colour, in
    the order of the array; what [colorRange] returns is ignored. *)
Definition restoreColors (ws : Sheet) (oldColors : list OldColor) : Sheet :=
  foldl (λ ws' oldColor, snd (colorRange ws' (range oldColor) (color oldColor))) ws oldColors.

(** The formulas a stage works on: [all_formulas.keyFilter(k =>
    fAddrDict.contains(k))] for the cells of the arm [step]. *)
Definition armFormulas (step : Range) (all_formulas_ : Dictionary ExceLintVector string)
    : Dictionary ExceLintVector string :=
  let fAddrs := expand (rectangle step) in
  let fAddrDict := foldl (λ d f, put (asKey f) f d) empty fAddrs in
  keyFilter (λ k, contains fAddrDict k) all_formulas_.
End Caller.

(** *** The readers of values and [fullAnalysisOnCellChange] *)

(** An element of [range.values]: a number, a string or a boolean. *)
Inductive CellValue : Type :=
  | NumberValue (n : Q)
  | StringValue (s : string)
  | BooleanValue (b : bool).

(** What these functions ask of the worksheet besides the above:
    [rangeValues] is [range.values] once loaded, [usedRange] the address of
    [ws.getUsedRange()] as a range ([getCurrentUsedRange]). *)
Class HostValues `{host : Host} : Type := {
  rangeValues : Sheet → Range → list (list CellValue);
  usedRange : Sheet → Range
}.

(** [for (let col = 0; col < data[row].length; col++) body] *)
Fixpoint forCols {A D : Type} (body : Z → A → D → D) (col : Z) (cells : list A) (d : D) : D :=
  match cells with
  | [] => d
  | val :: cells' => forCols body (col + 1) cells' (body col val d)
  end.

(** [for (let row = 0; row < data.length; row++) for (let col ...) body] *)
Fixpoint forRows {A D : Type} (body : Z → Z → A → D → D) (row : Z) (data : list (list A))
    (d : D) : D :=
  match data with
  | [] => d
  | cells :: data' => forRows body (row + 1) data' (forCols (body row) 0 cells d)
  end.

(** The three readers of a grid have one shape: a cell is stored under its
    address when a test [sel] on its value gives the text or value to store.
    [rowEntries] and [gridEntries] list what is stored for a row from column
    offset [c0] on, and for the rows of a grid from row offset [r0] on, in
    the order of the loops. *)
Section Entries.
Context {A V : Type}.
Variable sel : A → option V.
Variables origin_x origin_y : Z.

Definition pick (row col : Z) (val : A) (d : Dictionary ExceLintVector V)
    : Dictionary ExceLintVector V :=
  match sel val with
  | Some v => put (mkVector (origin_x + col) (origin_y + row) 0) v d
  | None => d
  end.

Fixpoint rowEntries (row c0 : Z) (cells : list A) : list (ExceLintVector * V) :=
  match cells with
  | [] => []
  | val :: cells' =>
      match sel val with
      | Some v => (mkVector (origin_x + c0) (origin_y + row) 0, v) :: rowEntries row (c0 + 1) cells'
      | None => rowEntries row (c0 + 1) cells'
      end
  end.

Fixpoint gridEntries (r0 : Z) (data : list (list A)) : list (ExceLintVector * V) :=
  match data with
  | [] => []
  | cells :: data' => (rowEntries r0 0 cells ++ gridEntries (r0 + 1) data')%list
  end.
End Entries.

(** What is stored of a value by [getNumericaDataFromRange] and by
    [getStringDataFromRange]. *)
Definition numberOf (val : CellValue) : option Q :=
  match val with
  | NumberValue n => Some n
  | _ => None
  end.

Definition textOf (val : CellValue) : option CellValue :=
  match val with
  | NumberValue _ => None
  | StringValue EmptyString => None
  | _ => Some val
  end.

Section Values.
Context `{hostValues : HostValues}.

(** [if (typeof val === "number") d.put(key, val)] *)
Definition numericCell (origin_x origin_y row col : Z) (val : CellValue)
    (d : Dictionary ExceLintVector Q) : Dictionary ExceLintVector Q :=
  match val with
  | NumberValue n => put (asKey (mkVector (origin_x + col) (origin_y + row) 0)) n d
  | _ => d
  end.

Definition getNumericaDataFromRange (ws : Sheet) (r : Range) : Dictionary ExceLintVector Q :=
  let data := rangeValues ws r in
  let origin_x := upperLeftColumn r in
  let origin_y := upperLeftRow r in
  forRows (numericCell origin_x origin_y) 0 data empty.

(** [if (typeof val !== "number" && val !== "") d.put(key, val)] *)
Definition stringCell (origin_x origin_y row col : Z) (val : CellValue)
    (d : Dictionary ExceLintVector CellValue) : Dictionary ExceLintVector CellValue :=
  match val with
  | NumberValue _ => d
  | StringValue EmptyString => d
  | _ => put (asKey (mkVector (origin_x + col) (origin_y + row) 0)) val d
  end.

(** The dictionary is declared with strings as values; what is stored is
    the element of [range.values] itself. *)
Definition getStringDataFromRange (ws : Sheet) (r : Range)
    : Dictionary ExceLintVector CellValue :=
  let data := rangeValues ws r in
  let origin_x := upperLeftColumn r in
  let origin_y := upperLeftRow r in
  forRows (stringCell origin_x origin_y) 0 data empty.
End Values.

Section FullAnalysis.
Context `{engine : Engine} `{hostValues : HostValues}.

(** The fixes [generate_proposed_fixes] proposes for the whole used range,
    the first half of [fullAnalysisOnCellChange]. *)
Definition candidates (ws : Sheet) : Result (list ProposedFix) :=
  let ur := usedRange ws in
  let ur_formulas := getFormulasFromRange ws ur in
  fRefs ← relativeFormulaRefs ur_formulas;
  fps ← fingerprints fRefs;
  rects_ ← identify_groups fps;
  generate_proposed_fixes rects_.

(** [fullAnalysisOnCellChange]: the analysis of the whole used range, for a
    change of a single cell; [cellCount] is [xlrng.cellCount]. *)
Definition fullAnalysisOnCellChange (cellCount : Z) (ws : Sheet) : Result (list ProposedFix) :=
  if bool_decide (cellCount = 1) then
    let ur := usedRange ws in
    let ur_formulas := getFormulasFromRange ws ur in
    let ur_styles := getFormattingFromRange ws ur in
    fRefs ← relativeFormulaRefs ur_formulas;
    fps ← fingerprints fRefs;
    rects_ ← identify_groups fps;
    pfs ← generate_proposed_fixes rects_;
    pfs2 ← filterFixesByUserThreshold pfs reportingThreshold;
    pfs2' ← adjustProposedFixesByStyleHash pfs2 ur_styles;
    heuristics ur_formulas pfs2' []
  else Ok [].
End FullAnalysis.
End App.

(** ** [core/src/rectangleutils], from the design document *)

Module RectangleUtils.

Definition isEmptyRange (rng : Range) : bool :=
  bool_decide (bottomRightColumn rng < upperLeftColumn rng
               ∨ bottomRightRow rng < upperLeftRow rng).

Definition inRange (rng : Range) (addr : Address) : bool :=
  bool_decide (upperLeftColumn rng ≤ column addr ≤ bottomRightColumn rng
               ∧ upperLeftRow rng ≤ row addr ≤ bottomRightRow rng).

(** Modelled from the spec: [findFatCross] is missing from the sources.
    Given a bounding range and a target inside it, it returns the four
    strips that run from the target cell to each edge of the range; an
    empty range or a target outside the range fails with a condition of
    its own. *)
Definition findFatCross (rng : Range) (addr : Address) : Result FatCross :=
  if isEmptyRange rng || negb (inRange rng addr) then Throw DegenerateInput
  else
    let ws := worksheet addr in
    Ok {| up := mkRange (mkAddress ws (upperLeftRow rng) (column addr)) addr;
          left := mkRange (mkAddress ws (row addr) (upperLeftColumn rng)) addr;
          down := mkRange addr (mkAddress ws (bottomRightRow rng) (column addr));
          right := mkRange addr (mkAddress ws (row addr) (bottomRightColumn rng)) |}.

(** Modelled from the spec: the tests on two rectangles behind
    "mergeable" are missing from the sources.  Two rectangles of one
    fingerprint are mergeable if they are adjacent (they share a full
    edge) or overlap, and their union is itself a rectangle. *)
Definition sameColumns (a b : Rectangle) : bool :=
  bool_decide (x (upperleft a) = x (upperleft b) ∧ x (bottomright a) = x (bottomright b)).

Definition sameRows (a b : Rectangle) : bool :=
  bool_decide (y (upperleft a) = y (upperleft b) ∧ y (bottomright a) = y (bottomright b)).

Definition is_adjacent (a b : Rectangle) : bool :=
  (sameColumns a b
     && bool_decide (y (bottomright a) + 1 = y (upperleft b)
                     ∨ y (bottomright b) + 1 = y (upperleft a)))
  || (sameRows a b
        && bool_decide (x (bottomright a) + 1 = x (upperleft b)
                        ∨ x (bottomright b) + 1 = x (upperleft a))).

Definition overlaps (a b : Rectangle) : bool :=
  bool_decide (x (upperleft a) ≤ x (bottomright b) ∧ x (upperleft b) ≤ x (bottomright a)
               ∧ y (upperleft a) ≤ y (bottomright b) ∧ y (upperleft b) ≤ y (bottomright a)).

(** [a] covers [b]: every cell of [b] is a cell of [a]. *)
Definition covers (a b : Rectangle) : bool :=
  bool_decide (x (upperleft a) ≤ x (upperleft b) ∧ x (bottomright b) ≤ x (bottomright a)
               ∧ y (upperleft a) ≤ y (upperleft b) ∧ y (bottomright b) ≤ y (bottomright a)).

(** The union of two rectangles that touch or overlap is a rectangle when
    one covers the other or they span the same columns or the same rows. *)
Definition unionIsRectangle (a b : Rectangle) : bool :=
  covers a b || covers b a || sameColumns a b || sameRows a b.

Definition mergeable (a b : Rectangle) : bool :=
  (is_adjacent a b || overlaps a b) && unionIsRectangle a b.

(** The bounding box of two rectangles: their union when they are
    mergeable. *)
Definition union (a b : Rectangle) : Rectangle :=
  mkRectangle
    (mkVector (Z.min (x (upperleft a)) (x (upperleft b)))
              (Z.min (y (upperleft a)) (y (upperleft b)))
              (z (upperleft a)))
    (mkVector (Z.max (x (bottomright a)) (x (bottomright b)))
              (Z.max (y (bottomright a)) (y (bottomright b)))
              (z (bottomright a))).

End RectangleUtils.

(** ** [core/src/colorize], from the design document *)

Module Colorize.

(** *** Incremental merger *)

(** Modelled from the spec: one coalescing.  [r] is merged with the first
    rectangle of [l] it is mergeable with; the union takes the place of that
    rectangle. *)
Fixpoint absorb (r : Rectangle) (l : list Rectangle) : option (list Rectangle) :=
  match l with
  | [] => None
  | r' :: l' =>
      if RectangleUtils.mergeable r r' then Some (RectangleUtils.union r r' :: l')
      else cons r' <$> absorb r l'
  end.

(** Modelled from the spec: coalesce the first mergeable pair of the list,
    if there is one. *)
Fixpoint coalesce (l : list Rectangle) : option (list Rectangle) :=
  match l with
  | [] => None
  | r :: l' =>
      match absorb r l' with
      | Some merged => Some merged
      | None => cons r <$> coalesce l'
      end
  end.

Lemma absorb_length r l l' : absorb r l = Some l' → length l' = length l.
Proof.
  revert l'. induction l as [|r' l IH]; intros l' H; simpl in H; [done|].
  destruct (RectangleUtils.mergeable r r'); [by inversion H|].
  destruct (absorb r l) as [m|] eqn:E; simpl in H; [|done].
  inversion H; subst. simpl. f_equal. by apply IH.
Qed.

Lemma coalesce_length l l' : coalesce l = Some l' → S (length l') = length l.
Proof.
  revert l'. induction l as [|r l IH]; intros l' H; simpl in H; [done|].
  destruct (absorb r l) as [m|] eqn:E.
  - inversion H; subst. simpl. f_equal. by eapply absorb_length.
  - destruct (coalesce l) as [m|] eqn:E'; simpl in H; [|done].
    inversion H; subst. simpl. f_equal. by apply IH.
Qed.

(** Modelled from the spec: coalesce until no pair is mergeable, the fixed
    point.  Every step shortens the list. *)
Equations? mergeList (l : list Rectangle) : list Rectangle by wf (length l) lt :=
  mergeList l with inspect (coalesce l) := {
    | exist _ (Some l') H => mergeList l'
    | exist _ None _ => l
  }.
Proof. apply coalesce_length in H. lia. Qed.

Section Groups.
Context {F : Type} `{EqDecision F}.

(** Modelled from the spec: [mergeRectangles] is missing from the
    sources.  For each fingerprint's rectangle list, it coalesces
    mergeable pairs into their union until no merge is possible. *)
Definition mergeRectangles (groups : Dictionary F (list Rectangle))
    : Dictionary F (list Rectangle) :=
  (λ kv, (fst kv, mergeList (snd kv))) <$> groups.

(** Modelled from the spec: [mergeRectangleDictionaries] is missing from
    the sources.  It unites the two mappings; the rectangle lists of a
    fingerprint of both are concatenated. *)
Definition mergeRectangleDictionaries (newGroups oldGroups : Dictionary F (list Rectangle))
    : Dictionary F (list Rectangle) :=
  foldl (λ d kv, put (fst kv) (default [] (lookup (fst kv) d) ++ snd kv)%list d)
        oldGroups newGroups.
End Groups.

(** *** Fix filters *)

(** Modelled from the spec: two fixes are pair-equal when they are on the
    same two rectangles, in either order. *)
Definition pairEqual (a b : ProposedFix) : bool :=
  bool_decide ((rect1 a = rect1 b ∧ rect2 a = rect2 b)
               ∨ (rect1 a = rect2 b ∧ rect2 a = rect1 b)).

(** Modelled from the spec: the pass over the list; [earlier] holds the
    fixes already passed. *)
Fixpoint dedup (earlier fixes : list ProposedFix) : list ProposedFix :=
  match fixes with
  | [] => []
  | pf :: rest =>
      if existsb (λ pf', pairEqual pf' pf) earlier
      then dedup (earlier ++ [pf])%list rest
      else pf :: dedup (earlier ++ [pf])%list rest
  end.

(** Modelled from the spec: [filterDuplicateFixes] is missing from the
    sources.  It removes the fixes that are pair-equal to an earlier fix
    of the list and keeps the others in their order. *)
Definition filterDuplicateFixes (fixes : list ProposedFix) : list ProposedFix :=
  dedup [] fixes.

(** The fix at position [i] of [fixes] is the first of its class: no fix
    before it is pair-equal to it. *)
Definition isFirst (fixes : list ProposedFix) (i : nat) (pf : ProposedFix) : bool :=
  forallb (λ pf', negb (pairEqual pf' pf)) (take i fixes).

(** The fixes of a list that are the first of their class, in order. *)
Definition firstOccurrences (offset : nat) (all fixes : list ProposedFix) : list ProposedFix :=
  snd <$> List.filter (λ ip, isFirst all (fst ip) (snd ip))
                      (zip (seq offset (length fixes)) fixes).

(** Modelled from the spec: [filterFixesByUserThreshold] is missing from
    the sources.  It drops every fix whose score is less suspicious than
    the threshold. *)
Definition filterFixesByUserThreshold (fixes : list ProposedFix) (thresh : Q)
    : list ProposedFix :=
  List.filter (λ pf, Qle_bool thresh (score pf)) fixes.

Section Styles.
(** How a score is reduced is a tuning choice of the engine. *)
Variable discount : Q → Q.

(** Modelled from the spec: the adjustment of one fix.  The style hashes of
    the representative, upper-left, cells of the two rectangles are
    compared, and the score is reduced when they differ.  Lookups are made
    for the keys that are present only: a fix whose representative cell has
    no style hash is left as it is. *)
Definition adjustFix (styles : Dictionary ExceLintVector string) (pf : ProposedFix)
    : ProposedFix :=
  match lookup (asKey (upperleft (rect1 pf))) styles,
        lookup (asKey (upperleft (rect2 pf))) styles with
  | Some style1, Some style2 =>
      if bool_decide (style1 = style2) then pf
      else mkFix (rect1 pf) (rect2 pf) (discount (score pf))
  | _, _ => pf
  end.

(** Modelled from the spec: [adjustProposedFixesByStyleHash] is missing
    from the sources.  It adjusts every fix of the list and removes none;
    the result is the array after the call. *)
Definition adjustProposedFixesByStyleHash (fixes : list ProposedFix)
    (styles : Dictionary ExceLintVector string) : list ProposedFix :=
  adjustFix styles <$> fixes.

(** The fix [pf'] is the fix [pf] after the adjustment: the same
    rectangles, and the score of [pf], reduced if the two style hashes
    differ. *)
Definition adjusted (styles : Dictionary ExceLintVector string) (pf pf' : ProposedFix) : Prop :=
  rect1 pf' = rect1 pf ∧ rect2 pf' = rect2 pf
  ∧ ∀ style1 style2,
      lookup (upperleft (rect1 pf)) styles = Some style1 →
      lookup (upperleft (rect2 pf)) styles = Some style2 →
      (style1 = style2 → score pf' = score pf)
      ∧ (style1 ≠ style2 → score pf' = discount (score pf)).
End Styles.

Section References.
(** The parser of formulas is a capability of its own: given the text of
    a formula and the cell it stands in, the absolute cell references of
    the formula, in the order of the text. *)
Variable parseReferences : string → ExceLintVector → list ExceLintVector.

Definition relativeTo (origin ref : ExceLintVector) : ExceLintVector :=
  mkVector (x ref - x origin) (y ref - y origin) (z ref - z origin).

(** Modelled from the spec: [relativeFormulaRefs] is missing from the
    sources.  Every formula is mapped to the list of its references,
    each taken relative to the address of the formula. *)
Definition relativeFormulaRefs (formulas : Dictionary ExceLintVector string)
    : Dictionary ExceLintVector (list ExceLintVector) :=
  (λ kv, (fst kv, relativeTo (fst kv) <$> parseReferences (snd kv) (fst kv))) <$> formulas.
End References.

End Colorize.

(** ** A small engine and a small sheet

    The operations of the design document above, completed with the
    simplest parser, fingerprint, decomposer, fix generator and veto, and a
    sheet held in memory: enough to run the analysis on examples. *)

Module Example.

(** A formula that is one reference, a capital letter and a digit. *)
Definition parseReferences (f : string) (origin : ExceLintVector) : list ExceLintVector :=
  match f with
  | String c (String d EmptyString) =>
      let col := Z.of_nat (nat_of_ascii c) - 64 in
      let row_ := Z.of_nat (nat_of_ascii d) - 48 in
      if bool_decide (1 ≤ col ≤ 26 ∧ 1 ≤ row_ ≤ 9) then [mkVector col row_ 0] else []
  | _ => []
  end.

(** The reference list stands for its own fingerprint. *)
Definition listFingerprints (refs : Dictionary ExceLintVector (list ExceLintVector))
    : Dictionary ExceLintVector (list ExceLintVector) := refs.

(** One rectangle of one cell per formula, under its fingerprint. *)
Definition cellGroups (fps : Dictionary ExceLintVector (list ExceLintVector))
    : Dictionary (list ExceLintVector) (list Rectangle) :=
  foldl (λ d kv, put (snd kv)
                     (default [] (lookup (snd kv) d) ++ [mkRectangle (fst kv) (fst kv)])%list d)
        empty fps.

(** The rectangles of [rs] that touch or overlap [r]. *)
Definition neighbours (r : Rectangle) (rs : list Rectangle) : list ProposedFix :=
  (λ r', mkFix r r' 1) <$>
    List.filter (λ r', RectangleUtils.is_adjacent r r' || RectangleUtils.overlaps r r') rs.

(** A fix for every pair of neighbouring rectangles of two fingerprints. *)
Fixpoint neighbourFixes (groups : Dictionary (list ExceLintVector) (list Rectangle))
    : list ProposedFix :=
  match groups with
  | [] => []
  | (_, rs) :: rest =>
      ((r ← rs; r' ← snd <$> rest; [(r, r')]) ≫= (λ p, neighbours (fst p) (snd p)))
        ++ neighbourFixes rest
  end%list.

(** A veto that looks up both formulas and lets every fix through. *)
Definition passFix (pf : ProposedFix) (rectf : Rectangle → Result RectInfo) (strict : bool)
    : Result (option ProposedFix) :=
  _ ← rectf (rect1 pf);
  _ ← rectf (rect2 pf);
  mret (Some pf).

Definition discount (s : Q) : Q := (s - 1)%Q.

#[export] Instance engine : Engine := {|
  Fingerprint := list ExceLintVector;
  findFatCross := RectangleUtils.findFatCross;
  relativeFormulaRefs := λ fs, Ok (Colorize.relativeFormulaRefs parseReferences fs);
  fingerprints := λ refs, Ok (listFingerprints refs);
  identify_groups := λ fps, Ok (cellGroups fps);
  mergeRectangleDictionaries := λ n o, Ok (Colorize.mergeRectangleDictionaries n o);
  mergeRectangles := λ g, Ok (Colorize.mergeRectangles g);
  generate_proposed_fixes := λ g, Ok (neighbourFixes g);
  filterDuplicateFixes := λ pfs, Ok (Colorize.filterDuplicateFixes pfs);
  filterFixesByUserThreshold := λ pfs t, Ok (Colorize.filterFixesByUserThreshold pfs t);
  adjustProposedFixesByStyleHash :=
    λ pfs st, Ok (Colorize.adjustProposedFixesByStyleHash discount pfs st);
  filterFix := passFix;
  reportingThreshold := (1 # 2)%Q
|}.

(** A sheet is the grid of the raw values of its used range; every cell
    is formatted alike and filled white. *)
#[export] Instance host : Host := {|
  Sheet := list (list string);
  rangeFormulas := λ ws _, ws;
  cellStyleHash := λ _ _ _, "plain";
  fillColor := λ _ _, Ok "#FFFFFF";
  setFillColor := λ ws _ _, ws;
  clearFill := λ ws _, ws
|}.

(** The values of the example sheet: a cell that is one digit is that
    number, every other cell its own text.  The used range is A1:B3. *)
Definition valueOf (raw : string) : App.CellValue :=
  match raw with
  | String d EmptyString =>
      let n := Z.of_nat (nat_of_ascii d) - 48 in
      if bool_decide (0 ≤ n ≤ 9) then App.NumberValue (inject_Z n) else App.StringValue raw
  | _ => App.StringValue raw
  end.

#[export] Instance hostValues : App.HostValues (host := host) := {|
  App.rangeValues := λ ws _, map (map valueOf) ws;
  App.usedRange := λ _, mkRange (mkAddress "Sheet1" 1 1) (mkAddress "Sheet1" 3 2)
|}.

#[export] Instance Address_eq_dec : EqDecision Address.
Proof. solve_decision. Defined.

#[export] Instance Range_eq_dec : EqDecision Range.
Proof. solve_decision. Defined.

(** A sheet that remembers the fills: the list of the paintings, the latest
    first; a range never painted is white, and clearing paints white. *)
Definition fills : Host := {|
  Sheet := Dictionary Range string;
  rangeFormulas := λ _ _, [];
  cellStyleHash := λ _ _ _, "plain";
  fillColor := λ ws r, Ok (default "#FFFFFF" (lookup r ws));
  setFillColor := λ ws r c, (r, c) :: ws;
  clearFill := λ ws r, (r, "#FFFFFF") :: ws
|}.

(** A column of three formulas next to three numbers.  The first two
    formulas refer two columns to the right, the third three columns. *)
Definition sheet : list (list string) :=
  [["=C1"; "5"]; ["=C2"; "7"]; ["=D3"; "9"]].

Definition usedRange : Range := mkRange (mkAddress "Sheet1" 1 1) (mkAddress "Sheet1" 3 2).

Definition A3 : Address := mkAddress "Sheet1" 3 1.

(** The fix the analysis finds: the block A1:A2 against the cell A3. *)
Definition A1A2_A3 : ProposedFix :=
  mkFix (mkRectangle (mkVector 1 1 0) (mkVector 1 2 0))
        (mkRectangle (mkVector 1 3 0) (mkVector 1 3 0)) 1.

End Example.

(** * Properties *)

(** ** Dictionaries *)

Section DictionaryFacts.
Context {K : Type} `{EqDecision K} {V : Type}.
Implicit Types (d : Dictionary K V) (k : K) (v : V).

Lemma lookup_put_eq k v d : lookup k (put k v d) = Some v.
Proof.
  induction d as [|[k' v'] d IH]; simpl.
  - by rewrite decide_True.
  - destruct (decide (k' = k)) as [->|Hne]; simpl.
    + by rewrite decide_True.
    + by rewrite decide_False.
Qed.

Lemma lookup_put_ne k k' v d : k ≠ k' → lookup k' (put k v d) = lookup k' d.
Proof.
  intros Hne. induction d as [|[k0 v0] d IH]; simpl.
  - by rewrite decide_False.
  - destruct (decide (k0 = k)) as [->|Hne0]; simpl.
    + by rewrite !decide_False.
    + destruct (decide (k0 = k')); [done|apply IH].
Qed.

Lemma lookup_put k k' v d :
  lookup k' (put k v d) = if decide (k = k') then Some v else lookup k' d.
Proof.
  destruct (decide (k = k')) as [->|Hne].
  - apply lookup_put_eq.
  - by apply lookup_put_ne.
Qed.
End DictionaryFacts.

(** ** [getFormulasFromRange] *)

Section GetFormulas.
Context `{host : Host}.
Import App.

Lemma scanCell_storedText ox oy row_ col val d :
  scanCell ox oy row_ col val d =
    match storedText val with
    | Some text => put (mkVector (ox + col) (oy + row_) 0) text d
    | None => d
    end.
Proof.
  unfold scanCell, storedText, asKey. destruct val as [|c rest]; simpl; [done|].
  destruct (decide (c = "="%char)) as [->|Hne]; simpl; [done|].
  rewrite (bool_decide_eq_false_2 (Some c = Some "="%char)) by congruence. simpl.
  destruct (decide (c = "+"%char ∨ c = "-"%char)) as [[->| ->]|Hn]; simpl; try done.
  rewrite !bool_decide_eq_false_2; [done|intros [= ->]; tauto|intros [= ->]; tauto].
Qed.

Lemma lookup_scanCols ox oy row_ cells : ∀ c0 d k text,
  lookup k (scanCols ox oy row_ c0 cells d) = Some text ↔
    (∃ (j : nat) val, cells !! j = Some val
        ∧ k = mkVector (ox + (c0 + Z.of_nat j)) (oy + row_) 0
        ∧ storedText val = Some text)
    ∨ ((∀ (j : nat) val, cells !! j = Some val →
          k = mkVector (ox + (c0 + Z.of_nat j)) (oy + row_) 0 → storedText val = None)
       ∧ lookup k d = Some text).
Proof.
  induction cells as [|val cells IH]; intros c0 d k text; simpl.
  - split; [intros Hl; right; split; [intros j v Hj; by destruct j|done]|].
    intros [(j & v & Hj & _)|[_ Hl]]; [by destruct j|done].
  - rewrite IH, scanCell_storedText. split.
    + intros [(j & v & Hj & -> & Hs)|[Hnone Hl]].
      * left. exists (S j), v. split; [done|]. split; [f_equal; lia|done].
      * destruct (storedText val) as [t|] eqn:Hv.
        -- rewrite lookup_put in Hl. destruct (decide _) as [<-|Hne].
           ++ left. exists 0%nat, val. simplify_eq. split; [done|].
              split; [f_equal; lia|done].
           ++ right. split; [|done]. intros [|j] v Hj Hk; simplify_eq/=.
              ** destruct Hne. f_equal; lia.
              ** apply (Hnone j v Hj). f_equal; lia.
        -- right. split; [|done]. intros [|j] v Hj Hk; simplify_eq/=; [done|].
           apply (Hnone j v Hj). f_equal; lia.
    + intros [(j & v & Hj & -> & Hs)|[Hnone Hl]].
      * destruct j as [|j]; simplify_eq/=.
        -- right. split.
           ++ intros j' v' Hj' [= Hk]. lia.
           ++ rewrite Hs, lookup_put, decide_True; [done|f_equal; lia].
        -- left. exists j, v. split; [done|]. split; [f_equal; lia|done].
      * right. split.
        -- intros j v Hj Hk. apply (Hnone (S j) v Hj). rewrite Hk. f_equal; lia.
        -- destruct (storedText val) as [t|] eqn:Hv; [|done].
           rewrite lookup_put_ne; [done|]. intros Hk.
           specialize (Hnone 0%nat val eq_refl). rewrite Hv in Hnone.
           discriminate Hnone. rewrite <- Hk. f_equal; lia.
Qed.

Lemma lookup_scanRows ox oy formulas : ∀ r0 d k text,
  lookup k (scanRows ox oy r0 formulas d) = Some text ↔
    (∃ (i j : nat) cells val, formulas !! i = Some cells ∧ cells !! j = Some val
        ∧ k = mkVector (ox + Z.of_nat j) (oy + (r0 + Z.of_nat i)) 0
        ∧ storedText val = Some text)
    ∨ ((∀ (i j : nat) cells val, formulas !! i = Some cells → cells !! j = Some val →
          k = mkVector (ox + Z.of_nat j) (oy + (r0 + Z.of_nat i)) 0 → storedText val = None)
       ∧ lookup k d = Some text).
Proof.
  induction formulas as [|cells formulas IH]; intros r0 d k text; simpl.
  - split; [intros Hl; right; split; [intros i j c v Hi; by destruct i|done]|].
    intros [(i & j & c & v & Hi & _)|[_ Hl]]; [by destruct i|done].
  - rewrite IH, lookup_scanCols. split.
    + intros [(i & j & c & v & Hi & Hj & -> & Hs)|[Hnone [(j & v & Hj & -> & Hs)|[Hnone' Hl]]]].
      * left. exists (S i), j, c, v. repeat split; [done..|f_equal; lia|done].
      * left. exists 0%nat, j, cells, v. repeat split; [done..|f_equal; lia|done].
      * right. split; [|done]. intros [|i] j c v Hi Hj Hk; simplify_eq/=.
        -- apply (Hnone' j v Hj). f_equal; lia.
        -- apply (Hnone i j c v Hi Hj). f_equal; lia.
    + intros [(i & j & c & v & Hi & Hj & -> & Hs)|[Hnone Hl]].
      * destruct i as [|i]; simplify_eq/=.
        -- right. split.
           ++ intros i' j' c' v' Hi' Hj' [= Hk1 Hk2]. lia.
           ++ left. exists j, v. repeat split; [done|f_equal; lia|done].
        -- left. exists i, j, c, v. repeat split; [done..|f_equal; lia|done].
      * right. split.
        -- intros i j c v Hi Hj Hk. apply (Hnone (S i) j c v Hi Hj). rewrite Hk. f_equal; lia.
        -- right. split; [|done]. intros j v Hj Hk.
           apply (Hnone 0%nat j cells v eq_refl Hj). rewrite Hk. f_equal; lia.
Qed.

(** C2, as amended.  The dictionary of [getFormulasFromRange] holds
    exactly the cells whose raw value begins with "=", "+" or "-", each
    under its absolute address, the origin of the range plus the offsets of
    the cell in the grid.  The text stored is the raw value without its
    "=" for a value that begins with "=", and the raw value as it is, sign
    included, for a value that begins with "+" or "-". *)
Theorem getFormulasFromRange_spec (ws : Sheet) (r : Range) (k : ExceLintVector) (text : string) :
  lookup k (getFormulasFromRange ws r) = Some text ↔
    ∃ (i j : nat) cells val,
      rangeFormulas ws r !! i = Some cells ∧ cells !! j = Some val
      ∧ k = mkVector (upperLeftColumn r + Z.of_nat j) (upperLeftRow r + Z.of_nat i) 0
      ∧ ((charAt0 val = Some "="%char ∧ text = substr1 val)
         ∨ ((charAt0 val = Some "+"%char ∨ charAt0 val = Some "-"%char) ∧ text = val)).
Proof.
  unfold getFormulasFromRange. rewrite lookup_scanRows. split.
  - intros [(i & j & c & v & Hi & Hj & -> & Hs)|[_ Hl]]; [|done].
    exists i, j, c, v. repeat split; [done..|].
    unfold storedText in Hs. destruct v as [|ch rest]; [done|]. simpl.
    destruct (decide (ch = "="%char)) as [->|Hne]; [left; by simplify_eq|].
    destruct (decide _) as [[->| ->]|]; simplify_eq; right; (split; [|done]); [by left|by right].
  - intros (i & j & c & v & Hi & Hj & -> & Hs). left.
    exists i, j, c, v. repeat split; [done..|].
    unfold storedText. destruct v as [|ch rest]; simpl in *; [by destruct Hs as [[? _]|[[?|?] _]]|].
    destruct Hs as [[Hc ->]|[[Hc|Hc] ->]]; injection Hc as ->; done.
Qed.
End GetFormulas.

(** C2 as stated fails on a formula that begins with a sign: the cell A1 with
    raw value "+A1" is stored with its sign, not as "A1". *)
Lemma getFormulasFromRange_keeps_sign :
  let r := mkRange (mkAddress "Sheet1" 1 1) (mkAddress "Sheet1" 1 1) in
  let d := App.getFormulasFromRange (host := Example.host) [["+A1"]] r in
  App.charAt0 "+A1" = Some "+"%char
  ∧ lookup (mkVector 1 1 0) d = Some "+A1"
  ∧ lookup (mkVector 1 1 0) d ≠ Some (App.substr1 "+A1").
Proof. by vm_compute. Qed.

(** ** The three readers of a grid *)

Section DictionaryKeys.
Context {K : Type} `{EqDecision K} {V : Type}.
Local Open Scope list_scope.
Implicit Types (d : Dictionary K V) (k : K) (v : V).

Lemma lookup_None_keys k d : lookup k d = None ↔ k ∉ d.*1.
Proof.
  induction d as [|[k' v'] d IH]; simpl.
  - split; [intros _; apply not_elem_of_nil|done].
  - rewrite not_elem_of_cons. destruct (decide (k' = k)) as [->|Hne].
    + split; [done|intros [? _]; done].
    + rewrite IH. split; [intros ?; split; [congruence|done]|intros [_ ?]; done].
Qed.

Lemma lookup_Some_keys k v d : lookup k d = Some v → k ∈ d.*1.
Proof.
  intros Hl. destruct (decide (k ∈ d.*1)) as [|Hn]; [done|].
  apply lookup_None_keys in Hn. congruence.
Qed.

Lemma lookup_app k d1 d2 :
  lookup k (d1 ++ d2) = match lookup k d1 with Some v => Some v | None => lookup k d2 end.
Proof.
  induction d1 as [|[k' v'] d1 IH]; simpl; [done|].
  destruct (decide (k' = k)); [done|apply IH].
Qed.

Lemma put_fresh k v d : lookup k d = None → put k v d = d ++ [(k, v)].
Proof.
  induction d as [|[k' v'] d IH]; simpl; [done|].
  destruct (decide (k' = k)); [done|]. intros Hl. by rewrite IH.
Qed.

Lemma put_present k v d : is_Some (lookup k d) → (put k v d).*1 = d.*1.
Proof.
  induction d as [|[k' v'] d IH]; simpl; [by intros [? ?]|].
  destruct (decide (k' = k)); [done|]. intros Hl. rewrite !fmap_cons. f_equal. by apply IH.
Qed.

(** [put] keeps the keys of a dictionary distinct. *)
Lemma put_NoDup k v d : NoDup d.*1 → NoDup (put k v d).*1.
Proof.
  intros Hnd. destruct (lookup k d) as [v0|] eqn:Hl.
  - by rewrite put_present.
  - rewrite put_fresh by done. rewrite fmap_app. simpl.
    apply NoDup_app. split; [done|]. split; [|apply NoDup_singleton].
    intros k' Hk' ->%list_elem_of_singleton. by apply lookup_None_keys in Hl.
Qed.

Lemma lookup_keyFilter (p : K → bool) k d :
  lookup k (keyFilter p d) = if p k then lookup k d else None.
Proof.
  unfold keyFilter. induction d as [|[k' v'] d IH]; simpl; [by destruct (p k)|].
  destruct (p k') eqn:Hp; simpl.
  - destruct (decide (k' = k)) as [->|Hne]; [by rewrite Hp|done].
  - destruct (decide (k' = k)) as [->|Hne]; [by rewrite Hp in IH |- *|done].
Qed.

(** With distinct keys on the overriding side, [merge] looks a key up
    there first. *)
Lemma lookup_merge k d o :
  NoDup o.*1 →
  lookup k (merge d o) = match lookup k o with Some v => Some v | None => lookup k d end.
Proof.
  unfold merge. revert d. induction o as [|[k0 v0] o IH]; intros d Hnd; simpl; [done|].
  apply NoDup_cons in Hnd as [Hk0 Hnd]. rewrite IH by done. simpl in *.
  destruct (decide (k0 = k)) as [->|Hne].
  - apply lookup_None_keys in Hk0. by rewrite Hk0, lookup_put_eq.
  - by rewrite lookup_put_ne.
Qed.

(** A dictionary filled by [put] from a list: a key is looked up among the
    elements of the list first.  The keys [kf x] tell the elements apart. *)
Lemma lookup_foldl_put {X : Type} (kf : X → K) (vf : X → V) `{!Inj (=) (=) kf}
    (l : list X) : ∀ d k v,
  lookup k (foldl (λ d x, put (kf x) (vf x) d) d l) = Some v ↔
    (∃ x, x ∈ l ∧ kf x = k ∧ vf x = v) ∨ ((∀ x, x ∈ l → kf x ≠ k) ∧ lookup k d = Some v).
Proof.
  induction l as [|x l IH]; intros d k v; simpl.
  - split; [intros ?; right; split; [intros ? ?%elem_of_nil; done|done]|].
    intros [(x & ?%elem_of_nil & _)|[_ ?]]; done.
  - rewrite IH, lookup_put. split.
    + intros [(x' & Hx' & Hk & Hv)|[Hno Hl]].
      * left. exists x'. split; [by right|done].
      * destruct (decide (kf x = k)) as [Hk|Hk].
        -- left. exists x. split; [left|]. split; [done|congruence].
        -- right. split; [|done]. intros x' [->|Hx']%elem_of_cons; [done|by apply Hno].
    + intros [(x' & [->|Hx']%elem_of_cons & Hk & Hv)|[Hno Hl]].
      * destruct (decide (k ∈ kf <$> l)) as [(y & Hky & Hy)%list_elem_of_fmap|Hn].
        -- left. exists y. split; [done|]. split; [done|].
           rewrite <- Hk in Hky. apply (inj kf) in Hky. by subst.
        -- right. split; [intros y Hy Hky; apply Hn, list_elem_of_fmap; eauto|].
           rewrite decide_True by done. by rewrite Hv.
      * left. eauto.
      * right. split; [intros y Hy; apply Hno; by right|].
        rewrite decide_False; [done|]. apply Hno. left.
Qed.

Lemma foldl_put_NoDup {X : Type} (kf : X → K) (vf : X → V) (l : list X) : ∀ d,
  NoDup d.*1 → NoDup (foldl (λ d x, put (kf x) (vf x) d) d l).*1.
Proof. induction l as [|x l IH]; intros d Hd; simpl; [done|]. by apply IH, put_NoDup. Qed.
End DictionaryKeys.

Section ReaderFacts.
Import App.
Local Open Scope list_scope.
Context {A V : Type}.
Variable sel : A → option V.
Variables ox oy : Z.

Local Abbreviation pick := (App.pick sel ox oy).
Local Abbreviation rowEntries := (App.rowEntries sel ox oy).
Local Abbreviation gridEntries := (App.gridEntries sel ox oy).
Local Abbreviation cell := (λ (i j : Z), mkVector (ox + j) (oy + i) 0).

Lemma rowEntries_keys row_ cells : ∀ c0 k, k ∈ (rowEntries row_ c0 cells).*1 → y k = oy + row_.
Proof.
  induction cells as [|val cells IH]; intros c0 k; simpl; [by intros ?%elem_of_nil|].
  destruct (sel val); [|apply IH]. simpl. intros [->|Hk]%elem_of_cons; [done|by eapply IH].
Qed.

Lemma rowEntries_columns row_ cells : ∀ c0 k, k ∈ (rowEntries row_ c0 cells).*1 → ox + c0 ≤ x k.
Proof.
  induction cells as [|val cells IH]; intros c0 k; simpl; [by intros ?%elem_of_nil|].
  assert (k ∈ (rowEntries row_ (c0 + 1) cells).*1 → ox + c0 ≤ x k)
    by (intros Hk%IH; lia).
  destruct (sel val); [|done]. simpl. intros [->|Hk]%elem_of_cons; [simpl; lia|auto].
Qed.

Lemma gridEntries_rows data : ∀ r0 k, k ∈ (gridEntries r0 data).*1 → oy + r0 ≤ y k.
Proof.
  induction data as [|cells data IH]; intros r0 k; simpl; [by intros ?%elem_of_nil|].
  rewrite fmap_app. intros [Hk%rowEntries_keys|Hk%IH]%elem_of_app; lia.
Qed.

(** No cell of a row overwrites another: what a row adds is appended. *)
Lemma forCols_entries row_ cells : ∀ c0 d,
  (∀ k, k ∈ d.*1 → y k = oy + row_ → x k < ox + c0) →
  forCols (pick row_) c0 cells d = d ++ rowEntries row_ c0 cells.
Proof.
  induction cells as [|val cells IH]; intros c0 d Hd; simpl; [by rewrite app_nil_r|].
  unfold pick at 2. destruct (sel val) as [v|].
  - rewrite put_fresh.
    + rewrite IH; [by rewrite <- app_assoc|].
      intros k. rewrite fmap_app. intros [Hk|Hk%list_elem_of_singleton]%elem_of_app Hy.
      * specialize (Hd k Hk Hy). lia.
      * subst k. simpl. lia.
    + apply lookup_None_keys. intros Hk. specialize (Hd _ Hk eq_refl). simpl in Hd. lia.
  - apply IH. intros k Hk Hy. specialize (Hd k Hk Hy). lia.
Qed.

Lemma forRows_entries data : ∀ r0 d,
  (∀ k, k ∈ d.*1 → y k < oy + r0) →
  forRows pick r0 data d = d ++ gridEntries r0 data.
Proof.
  induction data as [|cells data IH]; intros r0 d Hd; simpl; [by rewrite app_nil_r|].
  rewrite forCols_entries by (intros k Hk Hy; specialize (Hd k Hk); lia).
  rewrite IH; [by rewrite <- app_assoc|].
  intros k. rewrite fmap_app. intros [Hk|Hk%rowEntries_keys]%elem_of_app; [|lia].
  specialize (Hd k Hk). lia.
Qed.

Lemma rowEntries_values row_ cells : ∀ c0, (rowEntries row_ c0 cells).*2 = omap sel cells.
Proof.
  induction cells as [|val cells IH]; intros c0; simpl; [done|].
  destruct (sel val); simpl; by rewrite IH.
Qed.

Lemma gridEntries_values data : ∀ r0, (gridEntries r0 data).*2 = omap sel (mjoin data).
Proof.
  induction data as [|cells data IH]; intros r0; simpl; [done|].
  by rewrite fmap_app, omap_app, rowEntries_values, IH.
Qed.

Lemma rowEntries_NoDup row_ cells : ∀ c0, NoDup (rowEntries row_ c0 cells).*1.
Proof.
  induction cells as [|val cells IH]; intros c0; simpl; [constructor|].
  destruct (sel val); [|done]. simpl. constructor; [|done].
  intros Hk%rowEntries_columns. simpl in Hk. lia.
Qed.

Lemma gridEntries_NoDup data : ∀ r0, NoDup (gridEntries r0 data).*1.
Proof.
  induction data as [|cells data IH]; intros r0; simpl; [constructor|].
  rewrite fmap_app. apply NoDup_app. split; [apply rowEntries_NoDup|]. split; [|done].
  intros k Hk%rowEntries_keys Hk'%gridEntries_rows. lia.
Qed.

(** A cell of the grid is looked up under its address. *)
Lemma lookup_forCols row_ cells : ∀ c0 d k v,
  lookup k (forCols (pick row_) c0 cells d) = Some v ↔
    (∃ (j : nat) val, cells !! j = Some val ∧ k = cell row_ (c0 + Z.of_nat j)
        ∧ sel val = Some v)
    ∨ ((∀ (j : nat) val, cells !! j = Some val →
          k = cell row_ (c0 + Z.of_nat j) → sel val = None)
       ∧ lookup k d = Some v).
Proof.
  induction cells as [|val cells IH]; intros c0 d k v; simpl.
  - split; [intros Hl; right; split; [intros j a Hj; by destruct j|done]|].
    intros [(j & a & Hj & _)|[_ Hl]]; [by destruct j|done].
  - rewrite IH. unfold App.pick. split.
    + intros [(j & a & Hj & -> & Hs)|[Hnone Hl]].
      * left. exists (S j), a. split; [done|]. split; [f_equal; lia|done].
      * destruct (sel val) as [t|] eqn:Hv.
        -- rewrite lookup_put in Hl. destruct (decide _) as [<-|Hne].
           ++ left. exists 0%nat, val. simplify_eq. split; [done|].
              split; [f_equal; lia|done].
           ++ right. split; [|done]. intros [|j] a Hj Hk; simplify_eq/=.
              ** destruct Hne. f_equal; lia.
              ** apply (Hnone j a Hj). f_equal; lia.
        -- right. split; [|done]. intros [|j] a Hj Hk; simplify_eq/=; [done|].
           apply (Hnone j a Hj). f_equal; lia.
    + intros [(j & a & Hj & -> & Hs)|[Hnone Hl]].
      * destruct j as [|j]; simplify_eq/=.
        -- right. split.
           ++ intros j' a' Hj' [= Hk]. lia.
           ++ rewrite Hs, lookup_put, decide_True; [done|f_equal; lia].
        -- left. exists j, a. split; [done|]. split; [f_equal; lia|done].
      * right. split.
        -- intros j a Hj Hk. apply (Hnone (S j) a Hj). rewrite Hk. f_equal; lia.
        -- destruct (sel val) as [t|] eqn:Hv; [|done].
           rewrite lookup_put_ne; [done|]. intros Hk.
           specialize (Hnone 0%nat val eq_refl). rewrite Hv in Hnone.
           discriminate Hnone. rewrite <- Hk. f_equal; lia.
Qed.

Lemma lookup_forRows data : ∀ r0 d k v,
  lookup k (forRows pick r0 data d) = Some v ↔
    (∃ (i j : nat) cells val, data !! i = Some cells ∧ cells !! j = Some val
        ∧ k = cell (r0 + Z.of_nat i) (Z.of_nat j) ∧ sel val = Some v)
    ∨ ((∀ (i j : nat) cells val, data !! i = Some cells → cells !! j = Some val →
          k = cell (r0 + Z.of_nat i) (Z.of_nat j) → sel val = None)
       ∧ lookup k d = Some v).
Proof.
  induction data as [|cells data IH]; intros r0 d k v; simpl.
  - split; [intros Hl; right; split; [intros i j c a Hi; by destruct i|done]|].
    intros [(i & j & c & a & Hi & _)|[_ Hl]]; [by destruct i|done].
  - rewrite IH, lookup_forCols. split.
    + intros [(i & j & c & a & Hi & Hj & -> & Hs)|[Hnone [(j & a & Hj & -> & Hs)|[Hnone' Hl]]]].
      * left. exists (S i), j, c, a. repeat split; [done..|f_equal; lia|done].
      * left. exists 0%nat, j, cells, a. repeat split; [done..|f_equal; lia|done].
      * right. split; [|done]. intros [|i] j c a Hi Hj Hk; simplify_eq/=.
        -- apply (Hnone' j a Hj). f_equal; lia.
        -- apply (Hnone i j c a Hi Hj). f_equal; lia.
    + intros [(i & j & c & a & Hi & Hj & -> & Hs)|[Hnone Hl]].
      * destruct i as [|i]; simplify_eq/=.
        -- right. split.
           ++ intros i' j' c' a' Hi' Hj' [= Hk1 Hk2]. lia.
           ++ left. exists j, a. repeat split; [done|f_equal; lia|done].
        -- left. exists i, j, c, a. repeat split; [done..|f_equal; lia|done].
      * right. split.
        -- intros i j c a Hi Hj Hk. apply (Hnone (S i) j c a Hi Hj). rewrite Hk. f_equal; lia.
        -- right. split; [|done]. intros j a Hj Hk.
           apply (Hnone 0%nat j cells a eq_refl Hj). rewrite Hk. f_equal; lia.
Qed.
End ReaderFacts.

Section Readers.
Import App.
Local Open Scope list_scope.

Lemma forCols_ext {A D : Type} (body body' : Z → A → D → D) (cells : list A) :
  (∀ col val d, body col val d = body' col val d) →
  ∀ c0 d, forCols body c0 cells d = forCols body' c0 cells d.
Proof.
  intros Hb. induction cells as [|val cells IH]; intros c0 d; simpl; [done|].
  by rewrite Hb, IH.
Qed.

Lemma forRows_ext {A D : Type} (body body' : Z → Z → A → D → D) (data : list (list A)) :
  (∀ row_ col val d, body row_ col val d = body' row_ col val d) →
  ∀ r0 d, forRows body r0 data d = forRows body' r0 data d.
Proof.
  intros Hb. induction data as [|cells data IH]; intros r0 d; simpl; [done|].
  rewrite IH. f_equal. by apply forCols_ext.
Qed.

Lemma scanCols_forCols ox oy row_ cells : ∀ c0 d,
  scanCols ox oy row_ c0 cells d = forCols (pick storedText ox oy row_) c0 cells d.
Proof.
  induction cells as [|val cells IH]; intros c0 d; simpl; [done|].
  by rewrite IH, scanCell_storedText.
Qed.

Lemma scanRows_forRows ox oy formulas : ∀ r0 d,
  scanRows ox oy r0 formulas d = forRows (pick storedText ox oy) r0 formulas d.
Proof.
  induction formulas as [|cells formulas IH]; intros r0 d; simpl; [done|].
  by rewrite IH, scanCols_forCols.
Qed.

Section Formulas.
Context `{host : Host}.

(** X1.  The dictionary of [getFormulasFromRange] lists the formula cells
    of the grid row by row, each once: its values are the stored texts of
    the cells that hold a formula, in the order of the grid, and no two
    entries have the same key, so that no cell overwrites another. *)
Theorem getFormulasFromRange_row_major (ws : Sheet) (r : Range) :
  (getFormulasFromRange ws r).*2 = omap storedText (mjoin (rangeFormulas ws r))
  ∧ NoDup (getFormulasFromRange ws r).*1.
Proof.
  unfold getFormulasFromRange. rewrite scanRows_forRows.
  rewrite forRows_entries by (intros k Hk; by apply elem_of_nil in Hk).
  split; [apply gridEntries_values|apply gridEntries_NoDup].
Qed.

Lemma foldl_bind {X Y D : Type} (f : D → Y → D) (g : X → list Y) (l : list X) : ∀ d,
  foldl f d (l ≫= g) = foldl (λ d x, foldl f d (g x)) d l.
Proof.
  induction l as [|x l IH]; intros d; [done|].
  rewrite bind_cons, foldl_app. apply IH.
Qed.

Lemma foldl_pointwise {X D : Type} (f g : D → X → D) (l : list X) :
  (∀ d x, f d x = g d x) → ∀ d, foldl f d l = foldl g d l.
Proof.
  intros Hfg. induction l as [|x l IH]; intros d; simpl; [done|]. by rewrite Hfg, IH.
Qed.

Lemma foldl_fmap_pair {X Y D : Type} (f : X → Y → D → D) (x : X) (l : list Y) : ∀ d,
  foldl (λ d y, f x y d) d l = foldl (λ d (p : X * Y), f p.1 p.2 d) d (pair x <$> l).
Proof. induction l as [|y l IH]; intros d; simpl; [done|apply IH]. Qed.

Lemma getFormattingFromRange_visited (ws : Sheet) (r : Range) :
  getFormattingFromRange ws r
  = foldl (λ d (p : Z * Z), put (mkVector p.2 p.1 0) (cellStyleHash ws (p.1 - 1) (p.2 - 1)) d)
          empty (visited r).
Proof.
  unfold getFormattingFromRange, visited, asKey. rewrite foldl_bind.
  apply foldl_pointwise. intros d row_.
  apply (foldl_fmap_pair (λ row_ col_ d,
           put (mkVector col_ row_ 0) (cellStyleHash ws (row_ - 1) (col_ - 1)) d)).
Qed.

Lemma elem_of_visited (r : Range) (row_ col : Z) :
  (row_, col) ∈ visited r ↔
    upperLeftRow r ≤ row_ ≤ bottomRightRow r ∧ upperLeftColumn r ≤ col ≤ bottomRightColumn r.
Proof.
  unfold visited. rewrite list_elem_of_bind. split.
  - intros (row' & Hin & Hr). apply list_elem_of_fmap in Hin as (col' & Heq & Hc).
    injection Heq as -> ->. apply elem_of_seqZ in Hc. apply elem_of_seqZ in Hr. lia.
  - intros [Hr Hc]. exists row_. split.
    + apply list_elem_of_fmap. exists col. split; [done|apply elem_of_seqZ; lia].
    + apply elem_of_seqZ. lia.
Qed.

#[local] Instance visited_key_inj : Inj (=) (=) (λ p : Z * Z, mkVector p.2 p.1 0).
Proof. intros [a b] [a' b'] [= -> ->]. done. Qed.

Lemma lookup_formatting (ws : Sheet) (r : Range) (k : ExceLintVector) (h : string) :
  lookup k (getFormattingFromRange ws r) = Some h ↔
    z k = 0
    ∧ upperLeftColumn r ≤ x k ≤ bottomRightColumn r
    ∧ upperLeftRow r ≤ y k ≤ bottomRightRow r
    ∧ h = cellStyleHash ws (y k - 1) (x k - 1).
Proof.
  rewrite getFormattingFromRange_visited.
  rewrite (lookup_foldl_put (λ p : Z * Z, mkVector p.2 p.1 0)
             (λ p, cellStyleHash ws (p.1 - 1) (p.2 - 1))).
  split.
  - intros [([row_ col] & Hin%elem_of_visited & <- & <-)|[_ Hl]]; [|done].
    simpl. intuition lia.
  - intros (Hz & Hx & Hy & ->). left. exists (y k, x k). split; [by apply elem_of_visited|].
    split; [|done]. destruct k as [kx ky kz]. simpl in *. by subst.
Qed.

(** X2.  The dictionary of [getFormattingFromRange] holds the cells of the
    range and no other: a key has a style hash if and only if its sheet
    index is 0 and its column and row lie between the corners of the range,
    and the hash is the one the sheet gives for the zero-based row and
    column of the cell.  So the dictionary of a range whose bottom-right
    corner lies above or left of its upper-left corner has no key. *)
Theorem getFormattingFromRange_cells (ws : Sheet) (r : Range) (k : ExceLintVector) (h : string) :
  lookup k (getFormattingFromRange ws r) = Some h ↔
    z k = 0
    ∧ upperLeftColumn r ≤ x k ≤ bottomRightColumn r
    ∧ upperLeftRow r ≤ y k ≤ bottomRightRow r
    ∧ h = cellStyleHash ws (y k - 1) (x k - 1).
Proof. apply lookup_formatting. Qed.

Lemma getFormattingFromRange_NoDup (ws : Sheet) (r : Range) :
  NoDup (getFormattingFromRange ws r).*1.
Proof.
  rewrite getFormattingFromRange_visited. apply foldl_put_NoDup. constructor.
Qed.
End Formulas.

Section Values.
Context `{hostValues : HostValues}.

Lemma getNumericaDataFromRange_pick (ws : Sheet) (r : Range) :
  getNumericaDataFromRange ws r
  = forRows (pick numberOf (upperLeftColumn r) (upperLeftRow r)) 0 (rangeValues ws r) empty.
Proof.
  unfold getNumericaDataFromRange. apply forRows_ext.
  intros row_ col val d. by destruct val.
Qed.

Lemma getStringDataFromRange_pick (ws : Sheet) (r : Range) :
  getStringDataFromRange ws r
  = forRows (pick textOf (upperLeftColumn r) (upperLeftRow r)) 0 (rangeValues ws r) empty.
Proof.
  unfold getStringDataFromRange. apply forRows_ext.
  intros row_ col val d. by destruct val as [?|[|]|].
Qed.

Lemma lookup_numeric (ws : Sheet) (r : Range) (k : ExceLintVector) (n : Q) :
  lookup k (getNumericaDataFromRange ws r) = Some n ↔
    ∃ (i j : nat) cells,
      rangeValues ws r !! i = Some cells ∧ cells !! j = Some (NumberValue n)
      ∧ k = mkVector (upperLeftColumn r + Z.of_nat j) (upperLeftRow r + Z.of_nat i) 0.
Proof.
  rewrite getNumericaDataFromRange_pick, lookup_forRows. split.
  - intros [(i & j & c & v & Hi & Hj & -> & Hs)|[_ Hl]]; [|done].
    destruct v; simplify_eq/=. by exists i, j, c.
  - intros (i & j & c & Hi & Hj & ->). left. by exists i, j, c, (NumberValue n).
Qed.

Lemma lookup_text (ws : Sheet) (r : Range) (k : ExceLintVector) (v : CellValue) :
  lookup k (getStringDataFromRange ws r) = Some v ↔
    ∃ (i j : nat) cells,
      rangeValues ws r !! i = Some cells ∧ cells !! j = Some v
      ∧ k = mkVector (upperLeftColumn r + Z.of_nat j) (upperLeftRow r + Z.of_nat i) 0
      ∧ (∀ n, v ≠ NumberValue n) ∧ v ≠ StringValue "".
Proof.
  rewrite getStringDataFromRange_pick, lookup_forRows. split.
  - intros [(i & j & c & a & Hi & Hj & -> & Hs)|[_ Hl]]; [|done].
    exists i, j, c. destruct a as [?|[|]|]; simplify_eq/=; done.
  - intros (i & j & c & Hi & Hj & -> & Hnum & Hempty). left. exists i, j, c, v.
    repeat split; [done..|]. destruct v as [n|[|]|]; [by destruct (Hnum n)|done..].
Qed.

(** X3.  The dictionary of [getNumericaDataFromRange] holds exactly the
    cells whose value is a number, each under its absolute address, the
    origin of the range plus the offsets of the cell in the grid, with that
    number. *)
Theorem getNumericaDataFromRange_numbers (ws : Sheet) (r : Range) (k : ExceLintVector) (n : Q) :
  lookup k (getNumericaDataFromRange ws r) = Some n ↔
    ∃ (i j : nat) cells,
      rangeValues ws r !! i = Some cells ∧ cells !! j = Some (NumberValue n)
      ∧ k = mkVector (upperLeftColumn r + Z.of_nat j) (upperLeftRow r + Z.of_nat i) 0.
Proof. apply lookup_numeric. Qed.

(** X4.  The dictionary of [getStringDataFromRange] holds exactly the cells
    whose value is neither a number nor the empty string, each under its
    absolute address, with that value: a boolean is stored as it is. *)
Theorem getStringDataFromRange_texts (ws : Sheet) (r : Range) (k : ExceLintVector)
    (v : CellValue) :
  lookup k (getStringDataFromRange ws r) = Some v ↔
    ∃ (i j : nat) cells,
      rangeValues ws r !! i = Some cells ∧ cells !! j = Some v
      ∧ k = mkVector (upperLeftColumn r + Z.of_nat j) (upperLeftRow r + Z.of_nat i) 0
      ∧ (∀ n, v ≠ NumberValue n) ∧ v ≠ StringValue "".
Proof. apply lookup_text. Qed.

(** X5.  The two dictionaries share no key, and between them they hold
    every cell of the grid but the cells that are the empty string: a cell
    is in the numeric dictionary, or in the string dictionary, or empty. *)
Theorem values_partition (ws : Sheet) (r : Range) :
  (∀ k, ¬ (is_Some (lookup k (getNumericaDataFromRange ws r))
           ∧ is_Some (lookup k (getStringDataFromRange ws r))))
  ∧ (∀ (i j : nat) cells val,
       rangeValues ws r !! i = Some cells → cells !! j = Some val →
       let k := mkVector (upperLeftColumn r + Z.of_nat j) (upperLeftRow r + Z.of_nat i) 0 in
       (∃ n, val = NumberValue n ∧ lookup k (getNumericaDataFromRange ws r) = Some n)
       ∨ lookup k (getStringDataFromRange ws r) = Some val
       ∨ val = StringValue "").
Proof.
  split.
  - intros k [[n Hn] [v Hv]].
    apply lookup_numeric in Hn as (i & j & c & Hi & Hj & ->).
    apply lookup_text in Hv as (i' & j' & c' & Hi' & Hj' & [= Hx Hy] & Hnum & _).
    assert (i' = i) as -> by lia. assert (j' = j) as -> by lia.
    simplify_eq. by destruct (Hnum n).
  - intros i j c val Hi Hj k. destruct val as [n|[|a s']|b].
    + left. exists n. split; [done|]. apply lookup_numeric. by exists i, j, c.
    + by right; right.
    + right; left. apply lookup_text. exists i, j, c. by repeat split.
    + right; left. apply lookup_text. exists i, j, c. by repeat split.
Qed.
End Values.
End Readers.

(** ** The error monad *)

Lemma bind_Ok {A B : Type} (m : Result A) (f : A → Result B) (b : B) :
  m ≫= f = Ok b → ∃ a, m = Ok a ∧ f a = Ok b.
Proof. destruct m as [a|e]; [eauto|discriminate]. Qed.

(** Split a chain of binds that ends well into its steps. *)
Ltac bind_inv H :=
  repeat match type of H with
    | _ ≫= _ = Ok _ =>
        let a := fresh "a" in
        let Ha := fresh "Hstep" in
        apply bind_Ok in H as (a & Ha & H)
    end.

(** ** The generator *)

Section GeneratorFacts.
Context `{engine : Engine} `{host : Host}.
Variables (rng : Range) (addr : Address) (use_colors_for_debugging use_styles : bool).
Import App.

Local Abbreviation stage := (App.stage addr use_colors_for_debugging use_styles).
Local Abbreviation next := (App.next rng addr use_colors_for_debugging use_styles).
Local Abbreviation resume := (App.resume addr use_colors_for_debugging use_styles).
Local Abbreviation iteration := (App.iteration addr use_colors_for_debugging use_styles).
Local Abbreviation analyse := (App.analyse addr).
Local Abbreviation initial := (App.initial rng).
Local Abbreviation reachable := (App.reachable rng addr use_colors_for_debugging use_styles).

Lemma analyse_steps step ss l l' : analyse step ss l = Ok l' → steps l' = steps l.
Proof. unfold App.analyse. intros H. bind_inv H. by injection H as <-. Qed.

Lemma stage_steps step c l ws l' ws' : stage step c l ws = (Ok l', ws') → steps l' = steps l.
Proof.
  unfold App.stage. intros H.
  destruct use_colors_for_debugging; [destruct (colorRange ws step c)|];
    injection H as H _; by apply analyse_steps in H.
Qed.

Lemma conclusive_No l : conclusive l = No ↔ proposed_fixes l = [].
Proof.
  unfold conclusive. case_bool_decide as Hlen.
  - split; [intros _; by apply nil_length_inv|done].
  - split; [done|intros Hnil; by rewrite Hnil in Hlen].
Qed.

Lemma conclusive_Definitely l :
  proposed_fixes l ≠ [] → conclusive l = Definitely (proposed_fixes l, old_colors l).
Proof.
  intros Hne. unfold conclusive. rewrite bool_decide_eq_false_2; [done|].
  by destruct (proposed_fixes l).
Qed.

(** A turn before the last one yields [Possibly], the last one the
    conclusive answer. *)
Lemma resume_stage i step l ws l' ws' :
  steps l !! i = Some step →
  stage step (default "" (debug_colors !! i)) l ws = (Ok l', ws') →
  resume i l ws = (Yield (yielded i l'), Suspended i l', ws').
Proof.
  intros Hi Hst. unfold App.resume, App.iteration.
  rewrite bool_decide_eq_true_2 by (by eapply lookup_lt_Some).
  by rewrite Hi, Hst.
Qed.

(** C1.  Once the fat cross is found, the generator works through exactly
    four stages, on the arms up, left, down and right in this order, each
    started by one call of [next] on whatever the sheet then is.  When the
    four stages go through, the first three calls yield [Possibly] with
    the fixes of their stage, the fourth yields [No] if and only if the
    fixes that survive its filters are none and [Definitely] with those
    fixes otherwise, and the fifth call returns: there is no fifth stage. *)
Theorem incrementalFatCrossAnalysis_stages
    (fc : FatCross) (wsA wsB wsC wsD wsE ws1 ws2 ws3 ws4 : Sheet) (l1 l2 l3 l4 : Locals) :
  findFatCross rng addr = Ok fc →
  stage (up fc) "#CBAACB" (initial fc wsA) wsA = (Ok l1, ws1) →
  stage (left fc) "#FFCCB6" l1 wsB = (Ok l2, ws2) →
  stage (down fc) "#ABDEE6" l2 wsC = (Ok l3, ws3) →
  stage (right fc) "#F3B0C3" l3 wsD = (Ok l4, ws4) →
  next Start wsA = (Yield (Possibly (proposed_fixes l1, old_colors l1)), Suspended 0 l1, ws1)
  ∧ next (Suspended 0 l1) wsB
      = (Yield (Possibly (proposed_fixes l2, old_colors l2)), Suspended 1 l2, ws2)
  ∧ next (Suspended 1 l2) wsC
      = (Yield (Possibly (proposed_fixes l3, old_colors l3)), Suspended 2 l3, ws3)
  ∧ (∃ v, next (Suspended 2 l3) wsD = (Yield v, Suspended 3 l4, ws4)
          ∧ (v = No ↔ proposed_fixes l4 = [])
          ∧ (proposed_fixes l4 ≠ [] → v = Definitely (proposed_fixes l4, old_colors l4)))
  ∧ (∃ v, next (Suspended 3 l4) wsE = (Return v, Completed, wsE)).
Proof.
  intros Hfc H1 H2 H3 H4.
  pose proof (stage_steps _ _ _ _ _ _ H1) as S1.
  pose proof (stage_steps _ _ _ _ _ _ H2) as S2.
  pose proof (stage_steps _ _ _ _ _ _ H3) as S3.
  pose proof (stage_steps _ _ _ _ _ _ H4) as S4.
  simpl in S1. rewrite S1 in S2. rewrite S2 in S3. rewrite S3 in S4.
  repeat split.
  - simpl. rewrite Hfc. fold (initial fc wsA).
    erewrite resume_stage; [|done|exact H1].
    unfold yielded. by rewrite S1.
  - simpl. erewrite resume_stage; [|by rewrite S1|exact H2].
    unfold yielded. by rewrite S2.
  - simpl. erewrite resume_stage; [|by rewrite S2|exact H3].
    unfold yielded. by rewrite S3.
  - exists (conclusive l4). split; [|split].
    + simpl. erewrite resume_stage; [|by rewrite S3|exact H4].
      unfold yielded. by rewrite S4.
    + apply conclusive_No.
    + apply conclusive_Definitely.
  - exists (conclusive l4). simpl. unfold App.resume.
    rewrite bool_decide_eq_false_2; [done|]. rewrite S4. simpl. lia.
Qed.

(** *** The states a generator goes through *)

Lemma iteration_steps i l ws l' ws' :
  iteration i l ws = (Ok l', ws') → steps l' = steps l.
Proof.
  unfold App.iteration. destruct (steps l !! i); [apply stage_steps|discriminate].
Qed.

Lemma resume_Suspended i l ws r j l' ws' :
  resume i l ws = (r, Suspended j l', ws') →
  j = i ∧ steps l' = steps l ∧ r = Yield (yielded i l')
  ∧ iteration i l ws = (Ok l', ws').
Proof.
  unfold App.resume. case_bool_decide; [|discriminate].
  destruct (iteration i l ws) as [[l0|e] ws0] eqn:Hit; [|discriminate].
  intros [= <- <- <- <-]. apply iteration_steps in Hit as Hst. done.
Qed.

Lemma next_Suspended g ws r j l' ws' :
  next g ws = (r, Suspended j l', ws') →
  r = Yield (yielded j l')
  ∧ ((∃ fc, g = Start ∧ findFatCross rng addr = Ok fc ∧ j = 0%nat
            ∧ steps l' = [up fc; left fc; down fc; right fc])
     ∨ (∃ i l, g = Suspended i l ∧ j = S i ∧ steps l' = steps l)).
Proof.
  destruct g as [|i l|]; simpl; [|intros H|discriminate].
  - destruct (findFatCross rng addr) as [fc|e] eqn:Hfc; [|discriminate].
    intros H. apply resume_Suspended in H as (-> & Hst & -> & _).
    split; [done|]. left. by exists fc.
  - apply resume_Suspended in H as (-> & Hst & -> & _).
    split; [done|]. right. by exists i, l.
Qed.

(** The array [steps] never changes: it holds the four arms. *)
Lemma reachable_steps g :
  reachable g → ∀ i l, g = Suspended i l → length (steps l) = 4%nat.
Proof.
  induction 1 as [|g ws r g' ws' Hg IH Hnext]; intros j l' Heq; [done|subst g'].
  apply next_Suspended in Hnext as [_ [(fc & _ & _ & _ & ->)|(i & l & -> & _ & ->)]]; [done|].
  by eapply IH.
Qed.

(** C10.  The fourth yield is the one that leaves the generator suspended
    in turn 3.  The value it yields is the value the next call returns,
    whatever the sheet has become in between: [No] when the fix list of
    the fourth stage is empty, and otherwise [Definitely] with this fix
    list and the old colours. *)
Theorem return_repeats_last_yield (g : Generator) (ws ws' : Sheet) (v : Verdict) (l : Locals) :
  reachable g →
  next g ws = (Yield v, Suspended 3 l, ws') →
  (∀ ws'', next (Suspended 3 l) ws'' = (Return v, Completed, ws''))
  ∧ (proposed_fixes l = [] → v = No)
  ∧ (proposed_fixes l ≠ [] → v = Definitely (proposed_fixes l, old_colors l)).
Proof.
  intros Hg Hnext.
  assert (length (steps l) = 4%nat) as Hlen
    by (eapply reachable_steps; [by eapply reachable_next|done]).
  apply next_Suspended in Hnext as [[= ->] _].
  assert (yielded 3 l = conclusive l) as ->
    by (unfold yielded; by rewrite Hlen, bool_decide_eq_true_2).
  split; [|split].
  - intros ws''. simpl. unfold App.resume. rewrite Hlen.
    by rewrite bool_decide_eq_false_2 by lia.
  - apply conclusive_No.
  - apply conclusive_Definitely.
Qed.

(** *** A caller that asks for every result

    The loop of [onRangeChange] ends: the generator is done after five
    calls of [next] at most, and it has yielded four values at most. *)

Lemma drain_S (fuel : nat) (g : Generator) (ws : Sheet) :
  drain rng addr use_colors_for_debugging use_styles (S fuel) g ws
  = match next g ws with
    | (Yield v, g', ws') =>
        let '(vs, e) := drain rng addr use_colors_for_debugging use_styles fuel g' ws' in
        (v :: vs, e)
    | (r, _, _) => ([], Some r)
    end.
Proof. done. Qed.

Lemma drain_Suspended_ends (k : nat) : ∀ i l ws,
  length (steps l) = 4%nat → (i + k = 3)%nat →
  ∃ vs r, drain rng addr use_colors_for_debugging use_styles (S k) (Suspended i l) ws
            = (vs, Some r)
          ∧ (length vs ≤ k)%nat.
Proof.
  induction k as [|k IH]; intros i l ws Hlen Hik; rewrite drain_S; cbn [App.next].
  - unfold App.resume. rewrite bool_decide_eq_false_2 by lia.
    eexists _, _. split; [done|simpl; lia].
  - unfold App.resume. rewrite bool_decide_eq_true_2 by lia.
    destruct (iteration (S i) l ws) as [[l'|e] ws'] eqn:Hit.
    + apply iteration_steps in Hit as Hst.
      destruct (IH (S i) l' ws') as (vs & r & Hd & Hvs); [congruence|lia|].
      rewrite Hd. eexists _, _. split; [done|simpl; lia].
    + eexists _, _. split; [done|simpl; lia].
Qed.

Lemma drain_ends (ws : Sheet) :
  ∃ vs r, drain rng addr use_colors_for_debugging use_styles 5 Start ws = (vs, Some r)
          ∧ (length vs ≤ 4)%nat.
Proof.
  rewrite drain_S. cbn [App.next].
  destruct (findFatCross rng addr) as [fc|e]; [|eexists _, _; split; [done|simpl; lia]].
  unfold App.resume. rewrite bool_decide_eq_true_2 by (simpl; lia).
  destruct (iteration 0 (initial fc ws) ws) as [[l'|e] ws'] eqn:Hit.
  - apply iteration_steps in Hit as Hst.
    destruct (drain_Suspended_ends 3 0 l' ws') as (vs & r & Hd & Hvs); [by rewrite Hst|done|].
    rewrite Hd. eexists _, _. split; [done|simpl; lia].
  - eexists _, _. split; [done|simpl; lia].
Qed.

(** *** The target cell *)

Lemma containsCell_includes (a b : ProposedFix) :
  Colorize.pairEqual a b = true → includesCellAt a addr = includesCellAt b addr.
Proof.
  unfold Colorize.pairEqual, includesCellAt. intros H%bool_decide_eq_true.
  destruct H as [[-> ->]|[-> ->]]; [done|apply orb_comm].
Qed.

Section TargetCell.
(** What the design document says of the three filters that follow the
    test on the target cell: the threshold filter drops fixes, the style
    adjustment changes scores, and the veto returns the fix or nothing.
    Every fix they hand on is on the two rectangles of a fix handed in. *)
Hypothesis threshold_keeps_rectangles : ∀ fixes t out pf,
  filterFixesByUserThreshold fixes t = Ok out → pf ∈ out →
  ∃ pf0, pf0 ∈ fixes ∧ Colorize.pairEqual pf0 pf = true.
Hypothesis adjust_keeps_rectangles : ∀ fixes styles_ out pf,
  adjustProposedFixesByStyleHash fixes styles_ = Ok out → pf ∈ out →
  ∃ pf0, pf0 ∈ fixes ∧ Colorize.pairEqual pf0 pf = true.
Hypothesis filterFix_keeps_rectangles : ∀ pf rectf_ strict value,
  filterFix pf rectf_ strict = Ok (Some value) → Colorize.pairEqual pf value = true.

Lemma heuristics_from af pfs4 : ∀ acc out pf,
  heuristics af pfs4 acc = Ok out → pf ∈ out →
  pf ∈ acc ∨ ∃ pf0, pf0 ∈ pfs4 ∧ Colorize.pairEqual pf0 pf = true.
Proof.
  induction pfs4 as [|fix_ rest IH]; intros acc out pf H Hin; simpl in H.
  - left. by injection H as <-.
  - apply bind_Ok in H as (ffix & Hff & H).
    destruct (IH _ _ _ H Hin) as [Hacc|(pf0 & Hpf0 & Heq)].
    + destruct ffix as [value|]; [|by left].
      apply elem_of_app in Hacc as [Hacc|Hv%list_elem_of_singleton]; [by left|subst].
      right. exists fix_. split; [left|by eapply filterFix_keeps_rectangles].
    + right. exists pf0. split; [by right|done].
Qed.

Lemma analyse_includes step ss l l' pf :
  analyse step ss l = Ok l' → pf ∈ proposed_fixes l' → includesCellAt pf addr = true.
Proof.
  unfold App.analyse. intros H Hin. bind_inv H. injection H as <-. simpl in Hin.
  match goal with Hh : heuristics _ _ _ = Ok _ |- _ =>
    destruct (heuristics_from _ _ _ _ _ Hh Hin) as [Hnil|(p4 & Hp4 & E4)] end;
    [by apply elem_of_nil in Hnil|].
  match goal with Ha : adjustProposedFixesByStyleHash _ _ = Ok _ |- _ =>
    destruct (adjust_keeps_rectangles _ _ _ _ Ha Hp4) as (p3 & Hp3 & E3) end.
  match goal with Ht : filterFixesByUserThreshold _ _ = Ok _ |- _ =>
    destruct (threshold_keeps_rectangles _ _ _ _ Ht Hp3) as (p2 & Hp2 & E2) end.
  apply list_elem_of_In, filter_In in Hp2 as [_ Hinc].
  rewrite <- (containsCell_includes _ _ E4), <- (containsCell_includes _ _ E3).
  by rewrite <- (containsCell_includes _ _ E2).
Qed.

(** C4.  Whatever state the generator is resumed in, every fix of the
    result it yields includes the target cell: one of the two rectangles
    of the fix contains the target address. *)
Theorem yielded_fixes_include_target
    (g g' : Generator) (ws ws' : Sheet) (v : Verdict) (pf : ProposedFix) :
  next g ws = (Yield v, g', ws') →
  pf ∈ fixesOf v →
  containsCell (rect1 pf) (asVector addr) = true
  ∨ containsCell (rect2 pf) (asVector addr) = true.
Proof.
  intros Hnext Hin. apply orb_true_iff. fold (includesCellAt pf addr).
  assert (∃ i l l', iteration i l ws = (Ok l', ws') ∧ v = yielded i l')
    as (i & l & l' & Hit & ->).
  { destruct g as [|i l|]; simpl in Hnext; [|..|discriminate].
    - destruct (findFatCross rng addr) as [fc|e]; [|discriminate].
      unfold App.resume in Hnext. case_bool_decide; [|discriminate].
      destruct (iteration _ _ ws) as [[l0|e] ws0] eqn:Hit; [|discriminate].
      injection Hnext as <- <- <-. eauto.
    - unfold App.resume in Hnext. case_bool_decide; [|discriminate].
      destruct (iteration _ _ ws) as [[l0|e] ws0] eqn:Hit; [|discriminate].
      injection Hnext as <- <- <-. eauto. }
  assert (pf ∈ proposed_fixes l') as Hpf.
  { unfold yielded, conclusive in Hin.
    repeat case_bool_decide; simpl in Hin; try done. by apply elem_of_nil in Hin. }
  unfold App.iteration in Hit. destruct (steps l !! i) as [step|]; [|discriminate].
  unfold App.stage in Hit.
  destruct use_colors_for_debugging; [destruct (colorRange ws step _)|];
    injection Hit as Hit _; by eapply analyse_includes.
Qed.
End TargetCell.

(** *** Degenerate inputs *)

(** An exception of [findFatCross] leaves the generator before any yield. *)
Lemma findFatCross_throws ws e :
  findFatCross rng addr = Throw e → next Start ws = (Rejected e, Completed, ws).
Proof. intros H. simpl. by rewrite H. Qed.

(** The generator has no test of its own on the range and the target: a
    rejection at the first call is an exception of [findFatCross] or of the
    first stage. *)
Lemma first_rejection_origin ws e g' ws' :
  next Start ws = (Rejected e, g', ws') →
  findFatCross rng addr = Throw e
  ∨ ∃ fc, findFatCross rng addr = Ok fc ∧ iteration 0 (initial fc ws) ws = (Throw e, ws').
Proof.
  cbn [App.next]. destruct (findFatCross rng addr) as [fc|e0]; [|intros [= -> _ _]; by left].
  unfold App.resume. rewrite bool_decide_eq_true_2 by (simpl; lia).
  destruct (iteration 0 (initial fc ws) ws) as [[l'|e1] ws1] eqn:Hit; [discriminate|].
  intros [= -> _ ->]. right. by exists fc.
Qed.

(** C9.  With the navigator of the design document, the analysis of an
    empty range, or of a target outside the range, is rejected with
    [DegenerateInput] at the first call of [next]: nothing is yielded and
    nothing is returned, so that the failure cannot be taken for the
    answer [No]. *)
Theorem degenerate_input_rejected (ws : Sheet) :
  (∀ r a, findFatCross r a = RectangleUtils.findFatCross r a) →
  RectangleUtils.isEmptyRange rng = true ∨ RectangleUtils.inRange rng addr = false →
  next Start ws = (Rejected DegenerateInput, Completed, ws)
  ∧ (∀ fuel, drain rng addr use_colors_for_debugging use_styles (S fuel) Start ws
             = ([], Some (Rejected DegenerateInput)))
  ∧ Rejected DegenerateInput ≠ Return No.
Proof.
  intros Hnav Hdeg.
  assert (next Start ws = (Rejected DegenerateInput, Completed, ws)) as Hnext.
  { apply findFatCross_throws. rewrite Hnav. unfold RectangleUtils.findFatCross.
    destruct Hdeg as [-> | ->]; [done|by rewrite orb_true_r]. }
  split; [done|]. split; [|done]. intros fuel. cbn [drain].
  by rewrite Hnext.
Qed.
End GeneratorFacts.

(** ** What the generator keeps from one call to the next *)

Section GeneratorInvariants.
Context `{engine : Engine} `{host : Host}.
Variables (rng : Range) (addr : Address) (use_colors_for_debugging use_styles : bool).
Import App.
Local Open Scope list_scope.

Local Abbreviation stage := (App.stage addr use_colors_for_debugging use_styles).
Local Abbreviation next := (App.next rng addr use_colors_for_debugging use_styles).
Local Abbreviation resume := (App.resume addr use_colors_for_debugging use_styles).
Local Abbreviation iteration := (App.iteration addr use_colors_for_debugging use_styles).
Local Abbreviation analyse := (App.analyse addr).
Local Abbreviation initial := (App.initial rng).
Local Abbreviation reachable := (App.reachable rng addr use_colors_for_debugging use_styles).
Local Abbreviation drain := (App.drain rng addr use_colors_for_debugging use_styles).

Lemma analyse_fields step ss l l' :
  analyse step ss l = Ok l' →
  steps l' = steps l ∧ old_colors l' = old_colors l ∧ all_formulas l' = all_formulas l
  ∧ styles l' = merge (styles l) ss.
Proof. unfold App.analyse. intros H. bind_inv H. by injection H as <-. Qed.

Lemma colorRange_range ws r c : range (colorRange ws r c).1 = r.
Proof.
  unfold colorRange. destruct (fillColor ws r); [|done]. by repeat case_bool_decide.
Qed.

(** What a stage that goes through does to the variables and to the
    sheet. *)
Lemma stage_fields step c l ws l' ws' :
  stage step c l ws = (Ok l', ws') →
  steps l' = steps l ∧ all_formulas l' = all_formulas l
  ∧ styles l' = merge (styles l) (if use_styles then getFormattingFromRange ws' step else empty)
  ∧ (if use_colors_for_debugging
     then ws' = (colorRange ws step c).2
          ∧ old_colors l' = old_colors l ++ [(colorRange ws step c).1]
     else ws' = ws ∧ old_colors l' = old_colors l).
Proof.
  unfold App.stage. intros H.
  destruct use_colors_for_debugging; [destruct (colorRange ws step c) as [oc ws1]|];
    injection H as H <-; apply analyse_fields in H as (? & ? & ? & ?); done.
Qed.

(** The writes to the sheet are those of [colorRange]. *)
Lemma stage_sheet step c l ws r ws' :
  stage step c l ws = (r, ws') →
  ws' = if use_colors_for_debugging then (colorRange ws step c).2 else ws.
Proof.
  unfold App.stage. intros H.
  destruct use_colors_for_debugging; [destruct (colorRange ws step c)|]; by injection H as _ <-.
Qed.

Lemma next_iteration g ws r g' ws' :
  next g ws = (r, g', ws') →
  ws' = ws ∨ ∃ i l, iteration i l ws = (match r with
                                        | Rejected e => Throw e
                                        | _ => match g' with
                                               | Suspended _ l' => Ok l'
                                               | _ => Throw AbsentKey
                                               end
                                        end, ws').
Proof.
  assert (∀ i l, resume i l ws = (r, g', ws') →
            ws' = ws ∨ ∃ i l, iteration i l ws = (match r with
                                        | Rejected e => Throw e
                                        | _ => match g' with
                                               | Suspended _ l' => Ok l'
                                               | _ => Throw AbsentKey
                                               end
                                        end, ws')) as Hres.
  { intros i l. unfold App.resume. case_bool_decide; [|intros [= <- <- <-]; by left].
    destruct (iteration i l ws) as [[l0|e] ws0] eqn:Hit; intros [= <- <- <-]; right; eauto. }
  destruct g as [|i l|]; simpl; [|apply Hres|intros [= <- <- <-]; by left].
  destruct (findFatCross rng addr); [apply Hres|intros [= <- <- <-]; by left].
Qed.

(** X6.  Without the debugging colours the analysis never writes to the
    sheet: whatever the state of the generator and the outcome of the call,
    [next] leaves the sheet as it was. *)
Theorem next_reads_only (g g' : Generator) (ws ws' : Sheet) (r : IteratorResult) :
  use_colors_for_debugging = false →
  next g ws = (r, g', ws') →
  ws' = ws.
Proof.
  intros Hdbg Hnext. apply next_iteration in Hnext as [?|(i & l & Hit)]; [done|].
  unfold App.iteration in Hit. destruct (steps l !! i); [|by injection Hit as _ <-].
  apply stage_sheet in Hit. by rewrite Hdbg in Hit.
Qed.

(** X7.  In every state the generator reaches, the turn counter is below
    four and [steps] holds the four arms that [findFatCross] returned, in
    the order up, left, down, right: the array is never changed. *)
Theorem reachable_turns (i : nat) (l : Locals) :
  reachable (Suspended i l) →
  (i < 4)%nat
  ∧ ∃ fc, findFatCross rng addr = Ok fc ∧ steps l = [up fc; left fc; down fc; right fc].
Proof.
  intros Hr. remember (Suspended i l) as g eqn:Hg. revert i l Hg.
  induction Hr as [|g ws r g' ws' Hg IH Hnext]; intros j l' Heq; [done|subst g'].
  destruct g as [|i l|]; simpl in Hnext; [| |discriminate].
  - destruct (findFatCross rng addr) as [fc|e] eqn:Hfc; [|discriminate].
    apply resume_Suspended in Hnext as (-> & Hst & _ & _).
    split; [lia|]. exists fc. by rewrite Hst.
  - destruct (IH i l eq_refl) as (_ & fc & Hfc & Hsteps).
    apply resume_Suspended in Hnext as (-> & Hst & _ & Hit).
    split; [|exists fc; by rewrite Hst].
    unfold App.iteration in Hit. destruct (steps l !! S i) as [step|] eqn:Hs; [|discriminate].
    apply lookup_lt_Some in Hs. rewrite Hsteps in Hs. simpl in Hs. lia.
Qed.

(** X8.  The formulas are read once: the dictionary [all_formulas] is the
    one read from the sheet at the first call of [next], and no later call
    changes it, whatever the sheet has become. *)
Theorem formulas_read_once (ws ws' : Sheet) (r : IteratorResult) (j : nat) (l' : Locals) :
  (next Start ws = (r, Suspended j l', ws') → all_formulas l' = getFormulasFromRange ws rng)
  ∧ (∀ i l, next (Suspended i l) ws = (r, Suspended j l', ws') →
            all_formulas l' = all_formulas l).
Proof.
  assert (∀ i l, resume i l ws = (r, Suspended j l', ws') → all_formulas l' = all_formulas l)
    as Hres.
  { intros i l (_ & _ & _ & Hit)%resume_Suspended. unfold App.iteration in Hit.
    destruct (steps l !! i); [|discriminate]. by apply stage_fields in Hit as (_ & ? & _). }
  split; simpl.
  - destruct (findFatCross rng addr) as [fc|]; [|discriminate]. intros H%Hres. by rewrite H.
  - intros i l. apply Hres.
Qed.

Lemma iteration_old_colors i l ws l' ws' :
  iteration i l ws = (Ok l', ws') →
  range <$> old_colors l'
  = if use_colors_for_debugging then (range <$> old_colors l) ++ take 1 (drop i (steps l))
    else range <$> old_colors l.
Proof.
  unfold App.iteration. destruct (steps l !! i) as [step|] eqn:Hs; [|discriminate].
  intros (_ & _ & _ & Hc)%stage_fields. destruct use_colors_for_debugging.
  - destruct Hc as [_ ->]. rewrite fmap_app. simpl. rewrite colorRange_range.
    by rewrite (drop_S _ _ _ Hs).
  - by destruct Hc as [_ ->].
Qed.

(** X9.  The list of old colours follows the stages: with the debugging
    colours on, after the yield of turn [i] it has one entry for each of
    the arms worked on so far, in their order; with the colours off it is
    empty. *)
Theorem old_colors_follow_stages (i : nat) (l : Locals) :
  reachable (Suspended i l) →
  range <$> old_colors l = if use_colors_for_debugging then take (S i) (steps l) else [].
Proof.
  intros Hr. remember (Suspended i l) as g eqn:Hg. revert i l Hg.
  induction Hr as [|g ws r g' ws' Hg IH Hnext]; intros j l' Heq; [done|subst g'].
  destruct g as [|i l|]; simpl in Hnext; [| |discriminate].
  - destruct (findFatCross rng addr) as [fc|e] eqn:Hfc; [|discriminate].
    apply resume_Suspended in Hnext as (-> & Hst & _ & Hit).
    apply iteration_old_colors in Hit. rewrite Hit, Hst. simpl.
    by destruct use_colors_for_debugging.
  - apply resume_Suspended in Hnext as (-> & Hst & _ & Hit).
    apply iteration_old_colors in Hit. rewrite Hit, Hst, (IH i l eq_refl).
    destruct use_colors_for_debugging; [|done].
    unfold App.iteration in *. clear.
    generalize (steps l). intros s. revert i. induction s as [|a s IHs]; intros i.
    + by destruct i.
    + destruct i as [|i]; [by destruct s|]. simpl. f_equal. apply (IHs i).
Qed.

Lemma merge_empty {K V : Type} `{EqDecision K} (d : Dictionary K V) : merge d empty = d.
Proof. done. Qed.

(** X10.  With the style discounts off, no formatting is read and the
    dictionary of styles stays empty through the whole run. *)
Theorem styles_stay_empty (i : nat) (l : Locals) :
  use_styles = false →
  reachable (Suspended i l) →
  styles l = [].
Proof.
  intros Hsty Hr. remember (Suspended i l) as g eqn:Hg. revert i l Hg.
  induction Hr as [|g ws r g' ws' Hg IH Hnext]; intros j l' Heq; [done|subst g'].
  assert (∀ i l, resume i l ws = (r, Suspended j l', ws') → styles l' = styles l) as Hres.
  { intros i l (_ & _ & _ & Hit)%resume_Suspended. unfold App.iteration in Hit.
    destruct (steps l !! i); [|discriminate].
    apply stage_fields in Hit as (_ & _ & -> & _). by rewrite Hsty. }
  destruct g as [|i l|]; simpl in Hnext; [| |discriminate].
  - destruct (findFatCross rng addr) as [fc|e]; [|discriminate]. by apply Hres in Hnext.
  - apply Hres in Hnext. rewrite Hnext. by eapply IH.
Qed.

Lemma next_stage g ws r j l' ws' :
  next g ws = (r, Suspended j l', ws') →
  ∃ l step c, steps l' !! j = Some step ∧ stage step c l ws = (Ok l', ws')
              ∧ (∀ i0 l0, g = Suspended i0 l0 → l = l0).
Proof.
  assert (∀ i l, resume i l ws = (r, Suspended j l', ws') →
            ∃ step c, steps l' !! j = Some step ∧ stage step c l ws = (Ok l', ws')) as Hres.
  { intros i l (-> & Hst & _ & Hit)%resume_Suspended. unfold App.iteration in Hit.
    destruct (steps l !! i) as [step|] eqn:Hs; [|discriminate].
    exists step, (default "" (debug_colors !! i)). by rewrite Hst. }
  destruct g as [|i l|]; simpl; [|intros H|discriminate].
  - destruct (findFatCross rng addr) as [fc|e]; [|discriminate].
    intros (step & c & ? & ?)%Hres. exists (initial fc ws), step, c. by repeat split.
  - apply Hres in H as (step & c & ? & ?). exists l, step, c.
    repeat split; [done..|]. by intros ? ? [= _ ->].
Qed.

(** X11.  With the style discounts on, a stage leaves every cell of its arm
    with the style hash it has just read: after the yield of turn [j], a
    cell between the corners of [steps[j]] is looked up to the hash of the
    sheet as the stage left it, whatever an earlier stage had stored for
    this cell. *)
Theorem styles_of_arm (g : Generator) (ws ws' : Sheet) (r : IteratorResult) (j : nat)
    (l' : Locals) (step : Range) (k : ExceLintVector) :
  use_styles = true →
  next g ws = (r, Suspended j l', ws') →
  steps l' !! j = Some step →
  z k = 0 →
  upperLeftColumn step ≤ x k ≤ bottomRightColumn step →
  upperLeftRow step ≤ y k ≤ bottomRightRow step →
  lookup k (styles l') = Some (cellStyleHash ws' (y k - 1) (x k - 1)).
Proof.
  intros Hsty Hnext Hstep Hz Hx Hy.
  apply next_stage in Hnext as (l & step' & c & Hstep' & Hst & _).
  assert (step' = step) as -> by congruence.
  apply stage_fields in Hst as (_ & _ & -> & _). rewrite Hsty.
  rewrite lookup_merge by apply getFormattingFromRange_NoDup.
  assert (lookup k (getFormattingFromRange ws' step)
          = Some (cellStyleHash ws' (y k - 1) (x k - 1))) as ->
    by (by apply lookup_formatting).
  done.
Qed.

(** X12.  The styles accumulate: a cell that has a style hash before a
    stage still has one after it. *)
Theorem styles_accumulate (i j : nat) (l l' : Locals) (ws ws' : Sheet) (r : IteratorResult)
    (k : ExceLintVector) :
  next (Suspended i l) ws = (r, Suspended j l', ws') →
  is_Some (lookup k (styles l)) →
  is_Some (lookup k (styles l')).
Proof.
  intros Hnext Hk.
  apply next_stage in Hnext as (l0 & step & c & _ & Hst & Hl0).
  rewrite (Hl0 i l eq_refl) in Hst.
  apply stage_fields in Hst as (_ & _ & -> & _).
  destruct use_styles; [|by rewrite merge_empty].
  rewrite lookup_merge by apply getFormattingFromRange_NoDup.
  by destruct (lookup k (getFormattingFromRange ws' step)).
Qed.
End GeneratorInvariants.

(** ** The callers of the generator *)

Section CallerFacts.
Context `{engine : Engine} `{host : Host}.
Variables (rng : Range) (addr : Address) (use_colors_for_debugging use_styles : bool).
Import App.
Local Open Scope list_scope.

Local Abbreviation stage := (App.stage addr use_colors_for_debugging use_styles).
Local Abbreviation next := (App.next rng addr use_colors_for_debugging use_styles).
Local Abbreviation resume := (App.resume addr use_colors_for_debugging use_styles).
Local Abbreviation iteration := (App.iteration addr use_colors_for_debugging use_styles).
Local Abbreviation initial := (App.initial rng).
Local Abbreviation drain := (App.drain rng addr use_colors_for_debugging use_styles).
Local Abbreviation analysisFixes :=
  (App.analysisFixes rng addr use_colors_for_debugging use_styles).
Local Abbreviation onRangeChange :=
  (App.onRangeChange rng addr use_colors_for_debugging use_styles).

(** More calls than needed change nothing. *)
Lemma drain_more (fuel n : nat) : ∀ g ws vs r,
  drain fuel g ws = (vs, Some r) → drain (fuel + n) g ws = (vs, Some r).
Proof.
  induction fuel as [|fuel IH]; intros g ws vs r; [discriminate|].
  change (S fuel + n)%nat with (S (fuel + n)). rewrite !drain_S.
  destruct (next g ws) as [[res g'] ws']. destruct res; try done.
  destruct (drain fuel g' ws') as [vs' e] eqn:Hd. intros [= <- ->].
  by rewrite (IH _ _ _ _ Hd).
Qed.

Lemma drain_Suspended_result (k : nat) : ∀ i l ws,
  length (steps l) = 4%nat → (i + k = 3)%nat →
  ∃ vs r, drain (S k) (Suspended i l) ws = (vs, Some r)
          ∧ ((∃ v, r = Return v ∧ length vs = k)
             ∨ (∃ e, r = Rejected e ∧ (length vs < k)%nat)).
Proof.
  induction k as [|k IH]; intros i l ws Hlen Hik; rewrite drain_S; cbn [App.next].
  - unfold App.resume. rewrite bool_decide_eq_false_2 by lia.
    eexists _, _. split; [done|]. left. by eexists.
  - unfold App.resume. rewrite bool_decide_eq_true_2 by lia.
    destruct (iteration (S i) l ws) as [[l'|e] ws'] eqn:Hit.
    + apply iteration_steps in Hit as Hst.
      destruct (IH (S i) l' ws') as (vs & r & Hd & Hr); [congruence|lia|].
      rewrite Hd. eexists _, _. split; [done|].
      destruct Hr as [(v & -> & Hvs)|(e & -> & Hvs)]; [left|right]; eexists;
        (split; [done|simpl; lia]).
    + eexists _, _. split; [done|]. right. eexists. split; [done|simpl; lia].
Qed.

Lemma drain_Start_result (ws : Sheet) :
  ∃ vs r, drain 5 Start ws = (vs, Some r)
          ∧ ((∃ v, r = Return v ∧ length vs = 4%nat)
             ∨ (∃ e, r = Rejected e ∧ (length vs < 4)%nat)).
Proof.
  rewrite drain_S. cbn [App.next].
  destruct (findFatCross rng addr) as [fc|e].
  - unfold App.resume. rewrite bool_decide_eq_true_2 by (simpl; lia).
    destruct (iteration 0 (initial fc ws) ws) as [[l'|e] ws'] eqn:Hit.
    + apply iteration_steps in Hit as Hst.
      destruct (drain_Suspended_result 3 0 l' ws') as (vs & r & Hd & Hr); [by rewrite Hst|done|].
      rewrite Hd. eexists _, _. split; [done|].
      destruct Hr as [(v & -> & Hvs)|(e & -> & Hvs)]; [left|right]; eexists;
        (split; [done|simpl; lia]).
    + eexists _, _. split; [done|]. right. eexists. split; [done|simpl; lia].
  - eexists _, _. split; [done|]. right. eexists. split; [done|simpl; lia].
Qed.

(** X13.  The loop of the callers ends: five calls of [next] are enough for
    every run, and further calls would change nothing.  The loop has seen
    four values when the generator returns, and fewer than four when a call
    is rejected. *)
Theorem caller_loop_ends (ws : Sheet) (n : nat) :
  ∃ vs r, drain (5 + n) Start ws = (vs, Some r)
          ∧ ((∃ v, r = Return v ∧ length vs = 4%nat)
             ∨ (∃ e, r = Rejected e ∧ (length vs < 4)%nat)).
Proof.
  destruct (drain_Start_result ws) as (vs & r & Hd & Hr).
  exists vs, r. split; [|done]. by apply (drain_more 5 n).
Qed.

(** X14.  The task pane's fixes are set if and only if no call of [next]
    is rejected: when a stage throws, the fixes that earlier stages yielded
    are dropped with the exception and the state keeps what it had. *)
Theorem rejected_run_sets_nothing (ws : Sheet) :
  analysisFixes ws = None ↔ ∃ vs e, drain 5 Start ws = (vs, Some (Rejected e)).
Proof.
  unfold App.analysisFixes.
  destruct (drain_Start_result ws) as (vs & r & -> & [(v & -> & _)|(e & -> & _)]).
  - split; [done|]. by intros (? & ? & ?).
  - split; [eauto|done].
Qed.

(** The run of four stages that go through, the sheet handed from one call
    to the next. *)
Lemma drain_stages (fc : FatCross) (ws ws1 ws2 ws3 ws4 : Sheet) (l1 l2 l3 l4 : Locals) :
  findFatCross rng addr = Ok fc →
  stage (up fc) "#CBAACB" (initial fc ws) ws = (Ok l1, ws1) →
  stage (left fc) "#FFCCB6" l1 ws1 = (Ok l2, ws2) →
  stage (down fc) "#ABDEE6" l2 ws2 = (Ok l3, ws3) →
  stage (right fc) "#F3B0C3" l3 ws3 = (Ok l4, ws4) →
  drain 5 Start ws
  = ([Possibly (proposed_fixes l1, old_colors l1);
      Possibly (proposed_fixes l2, old_colors l2);
      Possibly (proposed_fixes l3, old_colors l3);
      conclusive l4], Some (Return (conclusive l4))).
Proof.
  intros Hfc H1 H2 H3 H4.
  pose proof (stage_steps _ _ _ _ _ _ _ _ _ H1) as S1.
  pose proof (stage_steps _ _ _ _ _ _ _ _ _ H2) as S2.
  pose proof (stage_steps _ _ _ _ _ _ _ _ _ H3) as S3.
  pose proof (stage_steps _ _ _ _ _ _ _ _ _ H4) as S4.
  simpl in S1. rewrite S1 in S2. rewrite S2 in S3. rewrite S3 in S4.
  rewrite drain_S. cbn [App.next]. rewrite Hfc.
  erewrite resume_stage; [|done|exact H1].
  rewrite drain_S. cbn [App.next]. erewrite resume_stage; [|by rewrite S1|exact H2].
  rewrite drain_S. cbn [App.next]. erewrite resume_stage; [|by rewrite S2|exact H3].
  rewrite drain_S. cbn [App.next]. erewrite resume_stage; [|by rewrite S3|exact H4].
  rewrite drain_S. cbn [App.next]. unfold App.resume at 1.
  rewrite bool_decide_eq_false_2 by (rewrite S4; simpl; lia).
  unfold yielded. rewrite S1, S2, S3, S4. done.
Qed.

(** X15.  After a run of four stages the task pane shows the fixes of the
    fourth stage if there are any, and otherwise the fixes of the third
    stage: the answer [No] of the last yield does not clear the fixes that
    the [Possibly] before it has put in [found_fixes]. *)
Theorem onRangeChange_fixes (fc : FatCross) (ws ws1 ws2 ws3 ws4 : Sheet) (l1 l2 l3 l4 : Locals) :
  findFatCross rng addr = Ok fc →
  stage (up fc) "#CBAACB" (initial fc ws) ws = (Ok l1, ws1) →
  stage (left fc) "#FFCCB6" l1 ws1 = (Ok l2, ws2) →
  stage (down fc) "#ABDEE6" l2 ws2 = (Ok l3, ws3) →
  stage (right fc) "#F3B0C3" l3 ws3 = (Ok l4, ws4) →
  onRangeChange "RangeEdited" 1 ws
  = Some (match proposed_fixes l4 with
          | [] => proposed_fixes l3
          | _ :: _ => proposed_fixes l4
          end).
Proof.
  intros Hfc H1 H2 H3 H4. unfold App.onRangeChange, App.analysisFixes.
  rewrite !bool_decide_eq_true_2 by done.
  rewrite (drain_stages _ _ _ _ _ _ _ _ _ _ Hfc H1 H2 H3 H4).
  unfold foundFixes, conclusive. simpl. by destruct (proposed_fixes l4).
Qed.

(** *** The heuristic filter *)

(** X16.  The loop of the heuristic filter keeps, in their order and after
    the fixes already collected, the fixes the veto returns for the fixes of
    the list; and it fails, with the exception of the veto, at the first fix
    the veto fails on, whatever it has collected until then. *)
Theorem heuristics_collects (af : Dictionary ExceLintVector string)
    (pfs4 acc : list ProposedFix) :
  (∀ out, heuristics af pfs4 acc = Ok out ↔
     ∃ rs, Forall2 (λ pf r, filterFix pf (rectf af) true = Ok r) pfs4 rs
           ∧ out = acc ++ omap id rs)
  ∧ (∀ e, heuristics af pfs4 acc = Throw e ↔
       ∃ (n : nat) pf, pfs4 !! n = Some pf ∧ filterFix pf (rectf af) true = Throw e
         ∧ ∀ (m : nat) pf', (m < n)%nat → pfs4 !! m = Some pf' →
             ∃ r, filterFix pf' (rectf af) true = Ok r).
Proof.
  revert acc. induction pfs4 as [|fix_ rest IH]; intros acc; simpl.
  - split.
    + intros out. split.
      * intros [= <-]. exists []. split; [constructor|by rewrite app_nil_r].
      * intros (rs & ->%Forall2_nil_inv_l & ->). by rewrite app_nil_r.
    + intros e. split; [done|]. by intros (n & pf & ? & _).
  - destruct (filterFix fix_ (rectf af) true) as [ffix|e0] eqn:Hff; simpl.
    + destruct (IH (match ffix with Some value => acc ++ [value] | None => acc end))
        as [IHok IHthrow].
      split.
      * intros out. rewrite IHok. split.
        -- intros (rs & HF & ->). exists (ffix :: rs). split; [by constructor|].
           destruct ffix; simpl; by rewrite <- ?app_assoc.
        -- intros (rs & HF & ->). apply Forall2_cons_inv_l in HF as (r & rs' & Hr & HF & ->).
           assert (r = ffix) as -> by congruence. exists rs'. split; [done|].
           destruct ffix; simpl; by rewrite <- ?app_assoc.
      * intros e. rewrite IHthrow. split.
        -- intros (n & pf & Hn & He & Hbefore). exists (S n), pf. repeat split; [done..|].
           intros [|m] pf' Hm Hpf'; simplify_eq/=; [eauto|]. apply (Hbefore m); [lia|done].
        -- intros ([|n] & pf & Hn & He & Hbefore); simpl in Hn;
             [injection Hn as ->; congruence|].
           exists n, pf. repeat split; [done..|].
           intros m pf' Hm Hpf'. apply (Hbefore (S m)); [lia|done].
    + split.
      * intros out. split; [done|].
        intros (rs & HF & _). apply Forall2_cons_inv_l in HF as (r & rs' & Hr & _). congruence.
      * intros e. split.
        -- intros [= <-]. exists 0%nat, fix_. repeat split; [done..|]. intros m pf' Hm. lia.
        -- intros ([|n] & pf & Hn & He & Hbefore); simpl in Hn;
             [injection Hn as ->; congruence|].
           destruct (Hbefore 0%nat fix_) as [r Hr]; [lia|done|congruence].
Qed.
End CallerFacts.

(** ** The fix filters of the design document *)

Section Threshold.
Import Colorize.

Lemma threshold_passes (t1 t2 s : Q) :
  (t1 <= t2)%Q → Qle_bool t2 s = true → Qle_bool t1 s = true.
Proof.
  rewrite !Qle_bool_iff. intros H12 H2. by apply Qle_trans with t2.
Qed.

Lemma filterFixesByUserThreshold_sublist (fixes : list ProposedFix) (t1 t2 : Q) :
  (t1 <= t2)%Q →
  sublist (filterFixesByUserThreshold fixes t2) (filterFixesByUserThreshold fixes t1).
Proof.
  intros H12. unfold filterFixesByUserThreshold.
  induction fixes as [|pf fixes IH]; simpl; [constructor|].
  destruct (Qle_bool t2 (score pf)) eqn:E2.
  - rewrite (threshold_passes _ _ _ H12 E2). by apply sublist_skip.
  - destruct (Qle_bool t1 (score pf)); [by apply sublist_cons|done].
Qed.

(** C5.  For thresholds [t1 <= t2], the fixes that survive the threshold
    [t2] are among the fixes that survive [t1], and they are no more. *)
Theorem filterFixesByUserThreshold_monotone (fixes : list ProposedFix) (t1 t2 : Q) :
  (t1 <= t2)%Q →
  (∀ pf, pf ∈ filterFixesByUserThreshold fixes t2 → pf ∈ filterFixesByUserThreshold fixes t1)
  ∧ (length (filterFixesByUserThreshold fixes t2)
     ≤ length (filterFixesByUserThreshold fixes t1))%nat.
Proof.
  intros H12. pose proof (filterFixesByUserThreshold_sublist fixes _ _ H12) as Hsub.
  split.
  - intros pf Hin. by eapply sublist_subseteq.
  - by apply sublist_length.
Qed.

Lemma filterFixesByUserThreshold_elem (fixes : list ProposedFix) (t : Q) (pf : ProposedFix) :
  pf ∈ filterFixesByUserThreshold fixes t → pf ∈ fixes.
Proof.
  intros H. apply list_elem_of_In, filter_In in H as [H _]. by apply list_elem_of_In.
Qed.
End Threshold.

Section Merge.
Import Colorize.

(** No pair of the merged list is mergeable any more. *)
Lemma mergeList_fixed (l : list Rectangle) : coalesce (mergeList l) = None.
Proof. funelim (mergeList l); [assumption|congruence]. Qed.

Lemma mergeList_id (l : list Rectangle) : coalesce l = None → mergeList l = l.
Proof. intros Hnone. funelim (mergeList l); congruence. Qed.

Lemma mergeList_idempotent (l : list Rectangle) : mergeList (mergeList l) = mergeList l.
Proof. apply mergeList_id, mergeList_fixed. Qed.

(** C6.  Merging the rectangles of a dictionary that is already merged
    changes nothing. *)
Theorem mergeRectangles_idempotent {F : Type} (G : Dictionary F (list Rectangle)) :
  mergeRectangles (mergeRectangles G) = mergeRectangles G.
Proof.
  unfold mergeRectangles. rewrite <- list_fmap_compose.
  apply list_fmap_ext. intros _ [k rs] _. simpl. by rewrite mergeList_idempotent.
Qed.
End Merge.

Section Duplicates.
Import Colorize.

Lemma pairEqual_swap (r1 r2 : Rectangle) (s s' : Q) :
  pairEqual (mkFix r1 r2 s) (mkFix r2 r1 s') = true.
Proof. apply bool_decide_eq_true. by right. Qed.

Lemma pairEqual_refl (pf : ProposedFix) : pairEqual pf pf = true.
Proof. apply bool_decide_eq_true. by left. Qed.

Lemma pairEqual_sym (a b : ProposedFix) : pairEqual a b = pairEqual b a.
Proof.
  unfold pairEqual. apply bool_decide_ext.
  split; intros [[? ?]|[? ?]]; [left|right|left|right]; split; congruence.
Qed.

Lemma pairEqual_trans (a b c : ProposedFix) :
  pairEqual a b = true → pairEqual b c = true → pairEqual a c = true.
Proof.
  unfold pairEqual. rewrite !bool_decide_eq_true.
  intros [[-> ->]|[-> ->]] [[-> ->]|[-> ->]]; auto.
Qed.

Lemma dedup_firstOccurrences (fixes : list ProposedFix) : ∀ earlier,
  dedup earlier fixes = firstOccurrences (length earlier) (earlier ++ fixes) fixes.
Proof.
  unfold firstOccurrences.
  induction fixes as [|pf rest IH]; intros earlier; [done|].
  cbn [dedup length seq zip zip_with List.filter fst snd].
  specialize (IH (earlier ++ [pf])%list).
  rewrite <- app_assoc, length_app, Nat.add_1_r in IH. cbn [app] in IH.
  unfold isFirst at 1. rewrite take_app_length.
  replace (existsb (λ pf', pairEqual pf' pf) earlier)
    with (negb (forallb (λ pf', negb (pairEqual pf' pf)) earlier)).
  - destruct (forallb _ earlier); simpl; by rewrite IH.
  - clear. induction earlier as [|e earlier IHe]; [done|]. simpl.
    rewrite <- IHe. by destruct (pairEqual e pf).
Qed.

Lemma dedup_not_earlier (fixes : list ProposedFix) : ∀ earlier pf e,
  pf ∈ dedup earlier fixes → e ∈ earlier → pairEqual e pf = false.
Proof.
  induction fixes as [|pf0 rest IH]; intros earlier pf e Hin He; simpl in Hin.
  - by apply elem_of_nil in Hin.
  - assert (pf ∈ dedup (earlier ++ [pf0]) rest → pairEqual e pf = false) as Hrest.
    { intros Hin'. eapply IH; [done|]. apply elem_of_app. by left. }
    destruct (existsb _ earlier) eqn:Hex; [by apply Hrest|].
    apply elem_of_cons in Hin as [->|Hin]; [|by apply Hrest].
    apply not_true_is_false. intros Heq.
    assert (existsb (λ pf', pairEqual pf' pf0) earlier = true); [|congruence].
    apply existsb_exists. exists e. split; [by apply list_elem_of_In|done].
Qed.

Lemma dedup_distinct (fixes : list ProposedFix) : ∀ earlier (i j : nat) a b,
  (i < j)%nat → dedup earlier fixes !! i = Some a → dedup earlier fixes !! j = Some b →
  pairEqual a b = false.
Proof.
  induction fixes as [|pf rest IH]; intros earlier i j a b Hij Ha Hb; simpl in *; [done|].
  destruct (existsb _ earlier); [by eapply IH|].
  destruct i as [|i], j as [|j]; simpl in *; try lia.
  - injection Ha as ->. eapply dedup_not_earlier.
    + by eapply list_elem_of_lookup_2.
    + apply elem_of_app. right. by apply list_elem_of_singleton.
  - eapply (IH _ i j); [lia|done..].
Qed.

Lemma dedup_represents (fixes : list ProposedFix) : ∀ earlier pf,
  pf ∈ fixes →
  (∃ e, e ∈ earlier ∧ pairEqual e pf = true)
  ∨ (∃ pf', pf' ∈ dedup earlier fixes ∧ pairEqual pf' pf = true).
Proof.
  induction fixes as [|pf0 rest IH]; intros earlier pf Hin; [by apply elem_of_nil in Hin|].
  simpl. apply elem_of_cons in Hin as [->|Hin].
  - destruct (existsb _ earlier) eqn:Hex.
    + left. apply existsb_exists in Hex as (e & He & Heq).
      exists e. by rewrite list_elem_of_In.
    + right. exists pf0. split; [left|apply pairEqual_refl].
  - destruct (IH (earlier ++ [pf0])%list pf Hin) as [(e & He & Heq)|(pf' & Hpf' & Heq)].
    + apply elem_of_app in He as [He|He%list_elem_of_singleton]; [left; eauto|subst e].
      destruct (existsb _ earlier) eqn:Hex.
      * left. apply existsb_exists in Hex as (e' & He' & Heq').
        exists e'. rewrite list_elem_of_In. split; [done|]. by eapply pairEqual_trans.
      * right. exists pf0. split; [left|done].
    + right. exists pf'. split; [|done]. destruct (existsb _ earlier); [done|by right].
Qed.

(** C7.  [filterDuplicateFixes] keeps, in their order, exactly the fixes
    of the list that no earlier fix of the list is pair-equal to; the
    others are removed.  Pair-equality does not depend on the order of the
    two rectangles.  So no two fixes of the result are pair-equal, and
    every fix of the list is pair-equal to a fix of the result. *)
Theorem filterDuplicateFixes_first_occurrences (fixes : list ProposedFix) :
  filterDuplicateFixes fixes = firstOccurrences 0 fixes fixes
  ∧ (∀ r1 r2 s s', pairEqual (mkFix r1 r2 s) (mkFix r2 r1 s') = true)
  ∧ (∀ (i j : nat) a b, (i < j)%nat →
       filterDuplicateFixes fixes !! i = Some a → filterDuplicateFixes fixes !! j = Some b →
       pairEqual a b = false)
  ∧ (∀ pf, pf ∈ fixes → ∃ pf', pf' ∈ filterDuplicateFixes fixes ∧ pairEqual pf' pf = true).
Proof.
  unfold filterDuplicateFixes. repeat split.
  - apply (dedup_firstOccurrences fixes []).
  - apply pairEqual_swap.
  - apply dedup_distinct.
  - intros pf Hin. destruct (dedup_represents fixes [] pf Hin) as [(e & He & _)|H]; [|done].
    by apply elem_of_nil in He.
Qed.
End Duplicates.

Section StyleHash.
Import Colorize.
Variable discount : Q → Q.

Lemma adjustFix_adjusted styles pf : adjusted discount styles pf (adjustFix discount styles pf).
Proof.
  unfold adjustFix, adjusted, asKey.
  destruct (lookup (upperleft (rect1 pf)) styles) as [s1|];
    [destruct (lookup (upperleft (rect2 pf)) styles) as [s2|]|];
    [case_bool_decide|..]; (split; [done|split; [done|]]);
    intros style1 style2; intros [= <-]; try intros [= <-]; done.
Qed.

Lemma adjust_Forall2 styles fixes :
  Forall2 (adjusted discount styles) fixes (adjustProposedFixesByStyleHash discount fixes styles).
Proof.
  unfold adjustProposedFixesByStyleHash.
  induction fixes as [|pf rest IH]; constructor; [apply adjustFix_adjusted|done].
Qed.

Lemma adjust_keeps_rectangles fixes styles pf :
  pf ∈ adjustProposedFixesByStyleHash discount fixes styles →
  ∃ pf0, pf0 ∈ fixes ∧ pairEqual pf0 pf = true.
Proof.
  intros Hin. apply list_elem_of_lookup in Hin as [i Hi].
  destruct (Forall2_lookup_r _ _ _ _ _ (adjust_Forall2 styles fixes) Hi)
    as (pf0 & Hpf0 & Hr1 & Hr2 & _).
  exists pf0. split; [by eapply list_elem_of_lookup_2|].
  apply bool_decide_eq_true. by left.
Qed.
End StyleHash.

(** ** The reference extractor *)

Section ReferenceExtractor.
Import Colorize.
Variable parseReferences : string → ExceLintVector → list ExceLintVector.

(** On a dictionary of one formula the extractor returns the references
    the parser finds in it, each relative to the address of the formula.
    For the formula of the test at (0,5,0), the five vectors (0,-1,0) to
    (0,-5,0) come out exactly when the parser returns the cells (0,4,0)
    down to (0,0,0) in this order. *)
Lemma relativeFormulaRefs_singleton (f : string) :
  let fLoc := mkVector 0 5 0 in
  relativeFormulaRefs parseReferences [(fLoc, f)]
    = [(fLoc, [mkVector 0 (-1) 0; mkVector 0 (-2) 0; mkVector 0 (-3) 0;
               mkVector 0 (-4) 0; mkVector 0 (-5) 0])]
  ↔ parseReferences f fLoc
    = [mkVector 0 4 0; mkVector 0 3 0; mkVector 0 2 0; mkVector 0 1 0; mkVector 0 0 0].
Proof.
  simpl. unfold relativeFormulaRefs. simpl. split.
  - intros [= H].
    destruct (parseReferences f _) as [|[x1 y1 z1] [|[x2 y2 z2] [|[x3 y3 z3]
      [|[x4 y4 z4] [|[x5 y5 z5] [|]]]]]]; try discriminate.
    unfold relativeTo in H. simpl in H. injection H as ? ? ? ? ? ? ? ? ? ? ? ? ? ? ?.
    repeat f_equal; lia.
  - by intros ->.
Qed.
End ReferenceExtractor.

(** ** The formulas of an arm, the full analysis and the colours *)

Section ArmFormulas.
Context `{engine : Engine}.
Import App.

Lemma elem_of_expand (rect_ : Rectangle) (k : ExceLintVector) :
  k ∈ expand rect_ ↔
    z k = 0
    ∧ x (upperleft rect_) ≤ x k ≤ x (bottomright rect_)
    ∧ y (upperleft rect_) ≤ y k ≤ y (bottomright rect_).
Proof.
  unfold expand. rewrite list_elem_of_bind. split.
  - intros (row_ & Hin & Hr). apply list_elem_of_bind in Hin as (col & Hin & Hc).
    apply list_elem_of_singleton in Hin as ->.
    apply elem_of_seqZ in Hr. apply elem_of_seqZ in Hc. simpl. lia.
  - intros (Hz & Hx & Hy). exists (y k). split; [|apply elem_of_seqZ; lia].
    apply list_elem_of_bind. exists (x k). split; [|apply elem_of_seqZ; lia].
    apply list_elem_of_singleton. destruct k as [kx ky kz]. simpl in *. by subst.
Qed.

#[local] Instance asKey_inj : Inj (=) (=) asKey.
Proof. by intros k k'. Qed.

Lemma contains_cells (cells : list ExceLintVector) (k : ExceLintVector) :
  contains (foldl (λ d f, put (asKey f) f d) empty cells) k = true ↔ k ∈ cells.
Proof.
  unfold contains. rewrite bool_decide_eq_true. split.
  - intros [v Hv]. apply (lookup_foldl_put asKey id) in Hv as [(f & Hf & <- & _)|[_ Hl]]; done.
  - intros Hk. exists k. apply (lookup_foldl_put asKey id). left. by exists k.
Qed.

(** X17.  A stage works on the formulas of its arm and on no other: the
    dictionary it hands to the reference extractor holds a formula of
    [all_formulas] if and only if its cell is one of the cells that
    [expand] lists for the rectangle of the arm, and a stage that goes
    through has run the extractor on this dictionary. *)
Theorem stage_formulas (addr : Address) (step : Range)
    (ss : Dictionary ExceLintVector string) (l : Locals) :
  (∀ k text,
     lookup k (armFormulas step (all_formulas l)) = Some text ↔
       lookup k (all_formulas l) = Some text ∧ k ∈ expand (rectangle step))
  ∧ (∀ l', analyse addr step ss l = Ok l' →
       ∃ fRefs, relativeFormulaRefs (armFormulas step (all_formulas l)) = Ok fRefs).
Proof.
  split.
  - intros k text. unfold armFormulas. rewrite lookup_keyFilter.
    destruct (contains _ k) eqn:Hc.
    + apply contains_cells in Hc. split; [by intros ?|by intros [? _]].
    + split; [done|]. intros (_ & Hin).
      apply (proj2 (contains_cells _ k)) in Hin. congruence.
  - intros l' H. unfold App.analyse in H. apply bind_Ok in H as (fRefs & H & _).
    by exists fRefs.
Qed.
End ArmFormulas.

Section FullAnalysisFacts.
Context `{engine : Engine} `{hostValues : App.HostValues}.
Import App.

(** X18.  The full analysis returns a fix for a change of a single cell
    only, and it invents none: when the three filters hand on fixes on the
    rectangles of the fixes handed in, every fix returned is on the two
    rectangles of a fix that [generate_proposed_fixes] proposed for the used
    range. *)
Theorem fullAnalysisOnCellChange_fixes (cellCount : Z) (ws : Sheet)
    (out : list ProposedFix) (pf : ProposedFix) :
  (∀ fixes t out pf,
     filterFixesByUserThreshold fixes t = Ok out → pf ∈ out →
     ∃ pf0, pf0 ∈ fixes ∧ Colorize.pairEqual pf0 pf = true) →
  (∀ fixes styles_ out pf,
     adjustProposedFixesByStyleHash fixes styles_ = Ok out → pf ∈ out →
     ∃ pf0, pf0 ∈ fixes ∧ Colorize.pairEqual pf0 pf = true) →
  (∀ pf rectf_ strict value,
     filterFix pf rectf_ strict = Ok (Some value) → Colorize.pairEqual pf value = true) →
  fullAnalysisOnCellChange cellCount ws = Ok out →
  pf ∈ out →
  cellCount = 1
  ∧ ∃ pfs pf0, candidates ws = Ok pfs ∧ pf0 ∈ pfs ∧ Colorize.pairEqual pf0 pf = true.
Proof.
  intros Hthr Hadj Hveto H Hin. unfold fullAnalysisOnCellChange in H.
  case_bool_decide as Hcount; [|injection H as <-; by apply elem_of_nil in Hin].
  split; [done|].
  apply bind_Ok in H as (fRefs & H1 & H). apply bind_Ok in H as (fps & H2 & H).
  apply bind_Ok in H as (rects_ & H3 & H). apply bind_Ok in H as (pfs & H4 & H).
  apply bind_Ok in H as (pfs2 & H5 & H). apply bind_Ok in H as (pfs2' & H6 & H).
  destruct (heuristics_from Hveto _ _ _ _ _ H Hin) as [Hnil|(p3 & Hp3 & E3)];
    [by apply elem_of_nil in Hnil|].
  destruct (Hadj _ _ _ _ H6 Hp3) as (p2 & Hp2 & E2).
  destruct (Hthr _ _ _ _ H5 Hp2) as (p1 & Hp1 & E1).
  exists pfs, p1. split; [|split; [done|]].
  - unfold candidates. rewrite H1. simpl. rewrite H2. simpl. by rewrite H3.
  - eapply pairEqual_trans; [|done]. by eapply pairEqual_trans.
Qed.
End FullAnalysisFacts.

Section Colours.
Context `{host : Host}.
Import App.

(** X19.  On a sheet that gives back the colour a range was filled with,
    and white for a range whose fill was cleared, painting a range and then
    restoring the old colour that [colorRange] reported brings the fill of
    the range back to what it was. *)
Theorem colorRange_restored (ws : Sheet) (r : Range) (c c0 : string) :
  (∀ ws r c, fillColor (setFillColor ws r c) r = Ok c) →
  (∀ ws r, fillColor (clearFill ws r) r = Ok "#FFFFFF") →
  fillColor ws r = Ok c0 →
  fillColor (restoreColors (colorRange ws r c).2 [(colorRange ws r c).1]) r = Ok c0.
Proof.
  intros Hset Hclear H0. unfold restoreColors.
  assert (∀ ws' c' c1, fillColor ws' r = Ok c1 →
            colorRange ws' r c'
            = if bool_decide (c' = c1) then (mkOldColor c' r, ws')
              else if bool_decide (c' = "#FFFFFF") then (mkOldColor c1 r, clearFill ws' r)
              else (mkOldColor c1 r, setFillColor ws' r c')) as Hcr
    by (intros ws' c' c1 H; unfold colorRange; by rewrite H).
  rewrite (Hcr ws c c0 H0).
  case_bool_decide as Hc; [|case_bool_decide as Hw]; simpl.
  - rewrite (Hcr ws c c0 H0), bool_decide_eq_true_2 by done. by subst c.
  - rewrite (Hcr _ c0 _ (Hclear ws r)). subst c.
    rewrite bool_decide_eq_false_2 by done. simpl. apply Hset.
  - rewrite (Hcr _ c0 _ (Hset ws r c)).
    rewrite bool_decide_eq_false_2 by done.
    case_bool_decide as Hw0; simpl; [subst c0; apply Hclear|apply Hset].
Qed.
End Colours.

(** ** The example sheet

    The properties above, on the sheet of [Example]: its used range is
    A1:B3, the formulas of A1 and A2 have one shape, the formula of A3
    another, and the target is A3. *)

Section ExampleRuns.
Import App Example.

Local Abbreviation next := (App.next (engine := engine) (host := host) usedRange A3 true true).

Lemma example_threshold_keeps_rectangles fixes t out pf :
  filterFixesByUserThreshold (Engine := engine) fixes t = Ok out → pf ∈ out →
  ∃ pf0, pf0 ∈ fixes ∧ Colorize.pairEqual pf0 pf = true.
Proof.
  intros [= <-] Hin. exists pf.
  split; [by eapply filterFixesByUserThreshold_elem|apply pairEqual_refl].
Qed.

Lemma example_adjust_keeps_rectangles fixes styles_ out pf :
  adjustProposedFixesByStyleHash (Engine := engine) fixes styles_ = Ok out → pf ∈ out →
  ∃ pf0, pf0 ∈ fixes ∧ Colorize.pairEqual pf0 pf = true.
Proof. intros [= <-]. apply adjust_keeps_rectangles. Qed.

Lemma example_filterFix_keeps_rectangles pf rectf_ strict value :
  filterFix (Engine := engine) pf rectf_ strict = Ok (Some value) →
  Colorize.pairEqual pf value = true.
Proof.
  simpl. unfold passFix. intros H. bind_inv H. injection H as <-. apply pairEqual_refl.
Qed.

(** The four stages on the example sheet. *)
Lemma incrementalFatCrossAnalysis_stages_example :
  ∃ fc l1 l2 l3 l4,
    findFatCross (Engine := engine) usedRange A3 = Ok fc
    ∧ next Start sheet
        = (Yield (Possibly (proposed_fixes l1, old_colors l1)), Suspended 0 l1, sheet)
    ∧ next (Suspended 0 l1) sheet
        = (Yield (Possibly (proposed_fixes l2, old_colors l2)), Suspended 1 l2, sheet)
    ∧ next (Suspended 1 l2) sheet
        = (Yield (Possibly (proposed_fixes l3, old_colors l3)), Suspended 2 l3, sheet)
    ∧ (∃ v, next (Suspended 2 l3) sheet = (Yield v, Suspended 3 l4, sheet)
            ∧ (v = No ↔ proposed_fixes l4 = [])
            ∧ (proposed_fixes l4 ≠ [] → v = Definitely (proposed_fixes l4, old_colors l4)))
    ∧ (∃ v, next (Suspended 3 l4) sheet = (Return v, Completed, sheet)).
Proof.
  eexists _, _, _, _, _. split; [reflexivity|].
  eapply (incrementalFatCrossAnalysis_stages (engine := engine) (host := host)
            usedRange A3 true true _ sheet sheet sheet sheet sheet sheet sheet sheet sheet);
    [reflexivity|lazy; reflexivity..].
Defined.

(** The fix yielded by the first stage includes the target A3. *)
Lemma yielded_fixes_include_target_example :
  containsCell (rect1 A1A2_A3) (asVector A3) = true
  ∨ containsCell (rect2 A1A2_A3) (asVector A3) = true.
Proof.
  eapply (yielded_fixes_include_target (engine := engine) (host := host)
            usedRange A3 true true
            example_threshold_keeps_rectangles
            example_adjust_keeps_rectangles
            example_filterFix_keeps_rectangles
            Start _ sheet _ _ A1A2_A3).
  - lazy. reflexivity.
  - lazy. left.
Defined.

(** The last yield and the return on the example sheet. *)
Lemma return_repeats_last_yield_example :
  ∃ g l,
    reachable (engine := engine) (host := host) usedRange A3 true true g
    ∧ next g sheet = (Yield (Definitely ([A1A2_A3], old_colors l)), Suspended 3 l, sheet)
    ∧ (∀ ws'', next (Suspended 3 l) ws''
               = (Return (Definitely ([A1A2_A3], old_colors l)), Completed, ws''))
    ∧ (proposed_fixes l = [] → Definitely ([A1A2_A3], old_colors l) = No)
    ∧ (proposed_fixes l ≠ [] →
       Definitely ([A1A2_A3], old_colors l) = Definitely (proposed_fixes l, old_colors l)).
Proof.
  assert (∃ g l v,
    reachable (engine := engine) (host := host) usedRange A3 true true g
    ∧ next g sheet = (Yield v, Suspended 3 l, sheet)
    ∧ v = Definitely ([A1A2_A3], old_colors l)) as (g & l & v & Hg & Hnext & ->).
  { eexists _, _, _. split; [|split].
    - pose proof (λ g, reachable_next (engine := engine) (host := host)
                         usedRange A3 true true g sheet) as step.
      eapply step; [eapply step; [eapply step; [apply reachable_start|]|]|];
        lazy; reflexivity.
    - lazy. reflexivity.
    - lazy. reflexivity. }
  exists g, l. split; [done|]. split; [done|].
  exact (return_repeats_last_yield usedRange A3 true true g sheet sheet _ l Hg Hnext).
Defined.

(** A target outside the used range: D9. *)
Lemma degenerate_input_rejected_example :
  let D9 := mkAddress "Sheet1" 9 4 in
  App.next (engine := engine) (host := host) usedRange D9 false false Start sheet
    = (Rejected DegenerateInput, Completed, sheet)
  ∧ (∀ fuel, drain (engine := engine) (host := host) usedRange D9 false false
               (S fuel) Start sheet
             = ([], Some (Rejected DegenerateInput)))
  ∧ Rejected DegenerateInput ≠ Return No.
Proof.
  apply (degenerate_input_rejected (engine := engine) (host := host)).
  - intros r a. reflexivity.
  - right. vm_compute. reflexivity.
Defined.

(** Two fixes, of scores 1 and 1/4, at the thresholds 1/2 and 3/4. *)
Lemma filterFixesByUserThreshold_monotone_example :
  let fixes := [A1A2_A3; mkFix (rect2 A1A2_A3) (rect1 A1A2_A3) (1 # 4)] in
  (∀ pf, pf ∈ Colorize.filterFixesByUserThreshold fixes (3 # 4) →
         pf ∈ Colorize.filterFixesByUserThreshold fixes (1 # 2))
  ∧ (length (Colorize.filterFixesByUserThreshold fixes (3 # 4))
     ≤ length (Colorize.filterFixesByUserThreshold fixes (1 # 2)))%nat.
Proof.
  apply filterFixesByUserThreshold_monotone. unfold Qle. simpl. lia.
Defined.

(** Two cells of a column merge into one rectangle, and merging again
    changes nothing. *)
Example mergeList_column :
  let A1 := mkRectangle (mkVector 1 1 0) (mkVector 1 1 0) in
  let A2 := mkRectangle (mkVector 1 2 0) (mkVector 1 2 0) in
  let C7 := mkRectangle (mkVector 3 7 0) (mkVector 3 7 0) in
  Colorize.mergeList [A1; C7; A2; A1]
    = [C7; mkRectangle (mkVector 1 1 0) (mkVector 1 2 0)].
Proof. by vm_compute. Qed.

(** A fix and its mirror image: the second is dropped. *)
Example filterDuplicateFixes_mirror :
  Colorize.filterDuplicateFixes
    [A1A2_A3; mkFix (rect2 A1A2_A3) (rect1 A1A2_A3) (1 # 4); A1A2_A3] = [A1A2_A3].
Proof. by vm_compute. Qed.
End ExampleRuns.

(** ** More of the example sheet *)

Section ExampleInvariants.
Import App Example.
Local Open Scope list_scope.

Local Abbreviation run := (App.next (engine := engine) (host := host) usedRange A3).
Local Abbreviation reached :=
  (App.reachable (engine := engine) (host := host) usedRange A3).

(** Without the debugging colours, the first call leaves the sheet alone. *)
Lemma next_reads_only_example :
  ∃ r g' ws', run false true Start sheet = (r, g', ws') ∧ ws' = sheet.
Proof.
  eexists _, _, _. split; [lazy; reflexivity|].
  eapply (next_reads_only (engine := engine) (host := host) usedRange A3 false true Start);
    [reflexivity|lazy; reflexivity].
Defined.

(** After the first yield: turn 0, and the four arms of the fat cross of
    A3. *)
Lemma reachable_turns_example :
  ∃ l : Locals, (0 < 4)%nat
       ∧ ∃ fc, findFatCross (Engine := engine) usedRange A3 = Ok fc
               ∧ steps l = [up fc; left fc; down fc; right fc].
Proof.
  eexists.
  eapply (reachable_turns (engine := engine) (host := host) usedRange A3 true true 0).
  eapply (reachable_next (engine := engine) (host := host) usedRange A3 true true Start sheet);
    [apply reachable_start|lazy; reflexivity].
Defined.

(** After the second yield the old colours are those of the arms up and
    left. *)
Lemma old_colors_follow_stages_example :
  ∃ l : Locals, range <$> old_colors l = take 2 (steps l) ∧ length (old_colors l) = 2%nat.
Proof.
  eexists. split.
  - eapply (old_colors_follow_stages (engine := engine) (host := host)
              usedRange A3 true true 1).
    eapply (reachable_next (engine := engine) (host := host) usedRange A3 true true _ sheet);
      [eapply (reachable_next (engine := engine) (host := host)
                 usedRange A3 true true Start sheet);
         [apply reachable_start|lazy; reflexivity]
      |lazy; reflexivity].
  - reflexivity.
Defined.

(** With the style discounts off the styles are empty after the first
    yield. *)
Lemma styles_stay_empty_example :
  ∃ l, reached true false (Suspended 0 l) ∧ styles l = [].
Proof.
  eexists. split.
  - eapply (reachable_next (engine := engine) (host := host) usedRange A3 true false Start sheet);
      [apply reachable_start|lazy; reflexivity].
  - eapply (styles_stay_empty (engine := engine) (host := host) usedRange A3 true false 0);
      [reflexivity|].
    eapply (reachable_next (engine := engine) (host := host) usedRange A3 true false Start sheet);
      [apply reachable_start|lazy; reflexivity].
Defined.

(** The first stage works on the arm A1:A3: the cell A2 has its style. *)
Lemma styles_of_arm_example :
  ∃ r l', run false true Start sheet = (r, Suspended 0 l', sheet)
          ∧ lookup (mkVector 1 2 0) (styles l') = Some "plain".
Proof.
  eexists _, _. split; [lazy; reflexivity|].
  eapply (styles_of_arm (engine := engine) (host := host) usedRange A3 false true
            Start sheet sheet _ 0 _ _ (mkVector 1 2 0));
    [reflexivity|lazy; reflexivity|lazy; reflexivity|reflexivity|split; by vm_compute..].
Defined.

(** The style of A1, read at the first stage, is still there after the
    second. *)
Lemma styles_accumulate_example :
  ∃ r0 r l l', run false true Start sheet = (r0, Suspended 0 l, sheet)
               ∧ run false true (Suspended 0 l) sheet = (r, Suspended 1 l', sheet)
               ∧ is_Some (lookup (mkVector 1 1 0) (styles l')).
Proof.
  assert (∃ r0 r l l', run false true Start sheet = (r0, Suspended 0 l, sheet)
                       ∧ run false true (Suspended 0 l) sheet = (r, Suspended 1 l', sheet))
    as (r0 & r & l & l' & H1 & H2)
    by (eexists _, _, _, _; split; lazy; reflexivity).
  exists r0, r, l, l'. split; [done|]. split; [done|].
  apply (styles_accumulate (engine := engine) (host := host) usedRange A3 false true
           0 1 l l' sheet sheet r (mkVector 1 1 0) H2).
  lazy in H1. injection H1 as _ Hl. subst l. lazy. eauto.
Defined.
End ExampleInvariants.

Section ExampleCallers.
Import App Example.
Local Open Scope list_scope.

(** A change of A3: the four stages run, and the task pane shows the fixes
    of the last stage that proposed any. *)
Lemma onRangeChange_fixes_example :
  ∃ l3 l4 : Locals,
    onRangeChange (engine := engine) (host := host) Example.usedRange A3 true true
      "RangeEdited" 1 sheet
    = Some (match proposed_fixes l4 with
            | [] => proposed_fixes l3
            | _ :: _ => proposed_fixes l4
            end).
Proof.
  eexists _, _.
  eapply (onRangeChange_fixes (engine := engine) (host := host)
            Example.usedRange A3 true true);
    lazy; reflexivity.
Defined.

(** The full analysis of the example sheet: its fix is one that was
    proposed for the used range. *)
Lemma fullAnalysisOnCellChange_fixes_example :
  ∃ out pf,
    fullAnalysisOnCellChange (engine := engine) (hostValues := hostValues) 1 sheet = Ok out
    ∧ pf ∈ out
    ∧ 1 = 1
    ∧ ∃ pfs pf0, candidates (engine := engine) (hostValues := hostValues) sheet = Ok pfs
                 ∧ pf0 ∈ pfs ∧ Colorize.pairEqual pf0 pf = true.
Proof.
  assert (∃ out pf,
            fullAnalysisOnCellChange (engine := engine) (hostValues := hostValues) 1 sheet
            = Ok out ∧ pf ∈ out) as (out & pf & Hout & Hpf).
  { eexists _, _. split; [lazy; reflexivity|]. left. }
  exists out, pf. split; [done|]. split; [done|].
  exact (fullAnalysisOnCellChange_fixes (engine := engine) (hostValues := hostValues)
           1 sheet out pf example_threshold_keeps_rectangles
           example_adjust_keeps_rectangles example_filterFix_keeps_rectangles Hout Hpf).
Defined.

(** A white range painted and restored is white again. *)
Lemma colorRange_restored_example :
  fillColor (Host := fills)
    (restoreColors (host := fills)
       (colorRange (host := fills) [] Example.usedRange "#CBAACB").2
       [(colorRange (host := fills) [] Example.usedRange "#CBAACB").1])
    Example.usedRange
  = Ok "#FFFFFF".
Proof.
  apply (colorRange_restored (host := fills) [] Example.usedRange "#CBAACB" "#FFFFFF").
  - intros ws r c. simpl. by rewrite decide_True.
  - intros ws r. simpl. by rewrite decide_True.
  - reflexivity.
Defined.
End ExampleCallers.
